(** * dbsqlx: SQL fact extraction and mysqldump plan synthesis

    A shallow embedding of the [cmd] package of dbsqlx (the visitor [ColX],
    [Extract], [FilterWhereForTable] and the statement loop of [runDump]),
    together with the parts of the Go library the package calls
    ([strings], [regexp] at the two patterns the package compiles) and of
    the TiDB syntax tree the visitor walks.

    A Go [string] is a sequence of bytes: it is modelled as [list ascii]. *)

From Stdlib Require Import Ascii String NArith.
From stdpp Require Import base decidable option list gmap strings pretty.

Local Open Scope list_scope.

Abbreviation gostring := (list ascii).

(** Go string literals are written [str "users."]. *)
Definition str (s : string) : gostring := list_ascii_of_string s.

(* ===================================================================== *)
(** ** The [strings] package *)
(* ===================================================================== *)

Module strings.

(** [a == b] on strings. *)
Fixpoint eq (a b : gostring) : bool :=
  match a, b with
  | [], [] => true
  | x :: a', y :: b' => Ascii.eqb x y && eq a' b'
  | _, _ => false
  end.

(** [strings.HasPrefix(s, prefix)]. *)
Fixpoint HasPrefix (s prefix : gostring) {struct prefix} : bool :=
  match prefix, s with
  | [], _ => true
  | _ :: _, [] => false
  | p :: prefix', c :: s' => if Ascii.eqb p c then HasPrefix s' prefix' else false
  end.

(** [strings.Contains(s, substr)]: some suffix of [s] starts with
    [substr]. *)
Fixpoint Contains (s substr : gostring) : bool :=
  HasPrefix s substr ||
  match s with
  | [] => false
  | _ :: s' => Contains s' substr
  end.

(** [strings.ReplaceAll(s, old, new)] for a non-empty [old]: the
    occurrences of [old] are found from left to right, without overlap,
    and each is replaced by [new].  [skip] counts the bytes of a matched
    occurrence that are still to be dropped.  Every call of the package
    passes a non-empty [old] (a literal, or a table name followed by a
    dot); for the empty [old], where Go inserts [new] around every rune,
    the text is returned as it is. *)
Fixpoint replaceFrom (old new : gostring) (skip : nat) (s : gostring) : gostring :=
  match s with
  | [] => []
  | c :: s' =>
    match skip with
    | S k => replaceFrom old new k s'
    | O =>
      if HasPrefix s old
      then new ++ replaceFrom old new (length old - 1) s'
      else c :: replaceFrom old new 0 s'
    end
  end.

Definition ReplaceAll (s old new : gostring) : gostring :=
  match old with
  | [] => s
  | _ :: _ => replaceFrom old new 0 s
  end.

(** [strings.Split(s, sep)] for a non-empty [sep]: the pieces of [s]
    between the occurrences of [sep] (left to right, without overlap);
    always at least one piece.  [cur] is the piece being read, in
    reverse. *)
Fixpoint splitFrom (sep : gostring) (skip : nat) (cur : gostring) (s : gostring)
  : list gostring :=
  match s with
  | [] => [rev cur]
  | c :: s' =>
    match skip with
    | S k => splitFrom sep k cur s'
    | O =>
      if HasPrefix s sep
      then rev cur :: splitFrom sep (length sep - 1) [] s'
      else splitFrom sep 0 (c :: cur) s'
    end
  end.

Definition Split (s sep : gostring) : list gostring :=
  match sep with
  | [] => [s]
  | _ :: _ => splitFrom sep 0 [] s
  end.

(** [strings.Join(elems, sep)]. *)
Fixpoint Join (elems : list gostring) (sep : gostring) : gostring :=
  match elems with
  | [] => []
  | [e] => e
  | e :: elems' => e ++ sep ++ Join elems' sep
  end.

(** *** [strings.TrimSpace]

    Leading and trailing white space is removed, white space as Unicode
    defines it ([unicode.IsSpace]): the ASCII characters TAB, LF, VT, FF,
    CR and SPACE, and the runes U+0085, U+00A0, U+1680, U+2000..U+200A,
    U+2028, U+2029, U+202F, U+205F and U+3000 in their UTF-8
    encodings. *)

Definition byte (c : ascii) : N := N_of_ascii c.

Definition asciiSpace (c : ascii) : bool :=
  let n := byte c in ((9 <=? n) && (n <=? 13) || (n =? 32))%N.

(** Two-byte white space: C2 85 (U+0085) and C2 A0 (U+00A0). *)
Definition space2 (b1 b2 : ascii) : bool :=
  ((byte b1 =? 194) && ((byte b2 =? 133) || (byte b2 =? 160)))%N.

(** Three-byte white space: E1 9A 80 (U+1680), E2 80 80..8A
    (U+2000..U+200A), E2 80 A8, E2 80 A9 (U+2028, U+2029), E2 80 AF
    (U+202F), E2 81 9F (U+205F), E3 80 80 (U+3000). *)
Definition space3 (b1 b2 b3 : ascii) : bool :=
  let '(x, y, z) := (byte b1, byte b2, byte b3) in
  ((x =? 225) && (y =? 154) && (z =? 128)
   || (x =? 226) && (y =? 128)
      && ((128 <=? z) && (z <=? 138) || (z =? 168) || (z =? 169) || (z =? 175))
   || (x =? 226) && (y =? 129) && (z =? 159)
   || (x =? 227) && (y =? 128) && (z =? 128))%N.

(** Runes are dropped from the front while they are white space; [sp2]
    and [sp3] receive the bytes in the order they are met. *)
Fixpoint trimRunes (sp2 : ascii → ascii → bool) (sp3 : ascii → ascii → ascii → bool)
    (s : gostring) : gostring :=
  match s with
  | [] => []
  | b1 :: s1 =>
    if asciiSpace b1 then trimRunes sp2 sp3 s1 else
    match s1 with
    | [] => s
    | b2 :: s2 =>
      if sp2 b1 b2 then trimRunes sp2 sp3 s2 else
      match s2 with
      | [] => s
      | b3 :: s3 => if sp3 b1 b2 b3 then trimRunes sp2 sp3 s3 else s
      end
    end
  end.

Definition TrimLeftSpace (s : gostring) : gostring := trimRunes space2 space3 s.

(** From the right the same runes are met last byte first. *)
Definition TrimRightSpace (s : gostring) : gostring :=
  rev (trimRunes (λ b2 b1, space2 b1 b2) (λ b3 b2 b1, space3 b1 b2 b3) (rev s)).

Definition TrimSpace (s : gostring) : gostring := TrimRightSpace (TrimLeftSpace s).

End strings.


(* ===================================================================== *)
(** ** The [regexp] package, at the two patterns the package compiles *)
(* ===================================================================== *)

Module regexp.
Import strings.

(** [\w] of Go's regexp syntax: ASCII letters, digits and underscore. *)
Definition isWordChar (c : ascii) : bool :=
  let n := byte c in
  ((48 <=? n) && (n <=? 57) || (65 <=? n) && (n <=? 90)
   || (97 <=? n) && (n <=? 122) || (n =? 95))%N.

Definition isWord (c : option ascii) : bool :=
  match c with Some c => isWordChar c | None => false end.

(** [\b]: exactly one of the bytes before and after the position is a
    word character; the start and the end of the text count as
    non-word. *)
Definition wordBoundary (before after : option ascii) : bool :=
  xorb (isWord before) (isWord after).

(** *** [_UTF8MB4'(.*?)'] replaced by ['$1']

    [(.*?)'] at the head of [s]: the shortest run of bytes other than
    line feed that is followed by a quote; the run and the text after the
    quote. *)
Fixpoint lazyQuoted (s : gostring) : option (gostring * gostring) :=
  match s with
  | [] => None
  | c :: s' =>
    if Ascii.eqb c "'" then Some ([], s')
    else if (byte c =? 10)%N then None
    else match lazyQuoted s' with
         | Some (body, rest) => Some (c :: body, rest)
         | None => None
         end
  end.

Definition charsetPrefix : gostring := str "_UTF8MB4'".

(** [ReplaceAllString] scans for the leftmost match, replaces it, and
    goes on after it.  In the template ['$1'] the name after [$] is [1]
    (the quote ends it), so a match becomes its group between quotes. *)
Fixpoint charsetFrom (skip : nat) (s : gostring) : gostring :=
  match s with
  | [] => []
  | c :: s' =>
    match skip with
    | S k => charsetFrom k s'
    | O =>
      if HasPrefix s charsetPrefix then
        match lazyQuoted (drop (length charsetPrefix) s) with
        | Some (body, _) =>
          str "'" ++ body ++ str "'"
          ++ charsetFrom (length charsetPrefix + length body) s'
        | None => c :: charsetFrom 0 s'
        end
      else c :: charsetFrom 0 s'
    end
  end.

Definition ReplaceCharset (filter : gostring) : gostring := charsetFrom 0 filter.

(** *** Template expansion ([Regexp.Expand]) for a pattern without groups

    [$$] is a dollar sign; [$name] and [${name}] are replaced by the
    whole match when [name] is [0] and by nothing otherwise (no such
    group); a [$] that no name follows stays.  A name is read here as the
    ASCII letters, digits and underscores after the [$]: Go also reads
    the letters and digits outside ASCII into it. *)
Fixpoint takeName (s : gostring) : gostring * gostring :=
  match s with
  | c :: s' =>
    if isWordChar c then let '(name, rest) := takeName s' in (c :: name, rest)
    else ([], s)
  | [] => ([], [])
  end.

(** [extract]: the name and the text after the reference. *)
Definition extract (s : gostring) : option (gostring * gostring) :=
  match s with
  | [] => None
  | c :: s' =>
    if Ascii.eqb c "{" then
      match takeName s' with
      | ([], _) => None
      | (name, r :: rest) => if Ascii.eqb r "}" then Some (name, rest) else None
      | (_, []) => None
      end
    else
      match takeName s with
      | ([], _) => None
      | (name, rest) => Some (name, rest)
      end
  end.

Definition reference (name whole : gostring) : gostring :=
  if eq name (str "0") then whole else [].

(** [fuel] bounds the number of bytes still to read. *)
Fixpoint expandFuel (fuel : nat) (template whole : gostring) : gostring :=
  match fuel with
  | O => []
  | S fuel =>
    match template with
    | [] => []
    | c :: after =>
      if Ascii.eqb c "$" then
        match after with
        | d :: after' =>
          if Ascii.eqb d "$" then "$"%char :: expandFuel fuel after' whole
          else match extract after with
               | Some (name, rest) => reference name whole ++ expandFuel fuel rest whole
               | None => "$"%char :: expandFuel fuel after whole
               end
        | [] => ["$"%char]
        end
      else c :: expandFuel fuel after whole
    end
  end.

Definition expand (template whole : gostring) : gostring :=
  expandFuel (S (length template)) template whole.

(** *** [\b] + [QuoteMeta(alias)] + [\.] replaced by the template [repl]

    [QuoteMeta] makes the pattern match [alias] literally.  [before] is
    the byte of the text in front of the position. *)
Fixpoint aliasFrom (alias repl : gostring) (skip : nat) (before : option ascii)
    (s : gostring) : gostring :=
  match s with
  | [] => []
  | c :: s' =>
    match skip with
    | S k => aliasFrom alias repl k (Some c) s'
    | O =>
      if wordBoundary before (Some c) && HasPrefix s (alias ++ str ".")
      then expand repl (alias ++ str ".") ++ aliasFrom alias repl (length alias) (Some c) s'
      else c :: aliasFrom alias repl 0 (Some c) s'
    end
  end.

Definition ReplaceAlias (alias repl filter : gostring) : gostring :=
  aliasFrom alias repl 0 None filter.

End regexp.

(* ===================================================================== *)
(** ** The syntax tree of the TiDB parser, as far as the visitor reads it *)
(* ===================================================================== *)

Module ast.

(** [*ast.TableName]; [Name_O] is [Name.O], the name as written. *)
Record TableName := { Name_O : gostring }.

(** What a [TableSource] wraps: a table name, or something else (a
    subquery, ...). *)
Inductive SourceNode :=
| SourceTableName (tableName : TableName)
| SourceOther.

(** [*ast.Join] and the [ResultSetNode]s on its two sides; [None] is
    [nil]. *)
Inductive Join :=
| MkJoin (Left Right : option ResultSetNode)
with ResultSetNode :=
| TableSource (Source : SourceNode) (AsName_O : gostring)
| JoinNode (join : Join)
| OtherResultSet.

(** [*ast.TableRefsClause]. *)
Record TableRefsClause := { TableRefs : option Join }.

Inductive error := RestoreFailed.

(** An expression, with what [Restore] does on it under
    [format.DefaultRestoreFlags]: the text written, or an error. *)
Record ExprNode := { Restore : gostring + error }.

(** The nodes [Enter] tells apart, with the fields it reads. *)
Inductive NodeKind :=
| ColumnName (Name_O : gostring)
| InsertStmt (Table : option TableRefsClause)
| UpdateStmt (TableRefs : option TableRefsClause) (Where : option ExprNode)
| DeleteStmt (TableRefs : option TableRefsClause) (Where : option ExprNode)
| SelectStmt (From : option TableRefsClause) (Where : option ExprNode)
| AlterTableStmt (Table : option TableName)
| CreateTableStmt (Table : option TableName)
| DropTableStmt (Tables : list (option TableName))
| TruncateTableStmt (Table : option TableName)
| OtherNode.

(** A node and the children its [Accept] method walks, in that order. *)
#[warnings="-register-all"]
Inductive Node := MkNode (self : NodeKind) (children : list Node).

(** [ast.Visitor]: [Enter] returns the visitor's new state and
    [skipChildren]; [Leave] returns the new state and [ok]. *)
Class Visitor (V : Type) := {
  Enter : V → NodeKind → V * bool;
  Leave : V → NodeKind → V * bool;
}.

(** [n.Accept(v)]: [Enter], then the children unless [Enter] asks to skip
    them, then [Leave]; a child whose [Accept] is not [ok] stops the
    walk. *)
Fixpoint Accept {V} `{!Visitor V} (n : Node) (v : V) : V * bool :=
  match n with
  | MkNode self children =>
    let '(v, skipChildren) := Enter v self in
    if skipChildren then Leave v self
    else
      let fix acceptAll (children : list Node) (v : V) : V * bool :=
        match children with
        | [] => (v, true)
        | child :: rest =>
          let '(v, ok) := Accept child v in
          if ok then acceptAll rest v else (v, false)
        end in
      let '(v, ok) := acceptAll children v in
      if ok then Leave v self else (v, false)
  end.

End ast.

(* ===================================================================== *)
(** ** Package [cmd] *)
(* ===================================================================== *)

Module cmd.
Import strings regexp ast.

(** *** The visitor *)

(** [ColX]: the visitor's fields.  A [nil] slice is the empty list. *)
Record ColX := {
  ColNames : list gostring;
  TableNames : list gostring;
  PrimaryTable : gostring;
  Action : gostring;
  WhereFilter : gostring;
  AliasMap : gmap gostring gostring;
}.

Definition setColNames (v : ColX) (x : list gostring) : ColX :=
  {| ColNames := x; TableNames := TableNames v; PrimaryTable := PrimaryTable v;
     Action := Action v; WhereFilter := WhereFilter v; AliasMap := AliasMap v |}.
Definition setTableNames (v : ColX) (x : list gostring) : ColX :=
  {| ColNames := ColNames v; TableNames := x; PrimaryTable := PrimaryTable v;
     Action := Action v; WhereFilter := WhereFilter v; AliasMap := AliasMap v |}.
Definition setPrimaryTable (v : ColX) (x : gostring) : ColX :=
  {| ColNames := ColNames v; TableNames := TableNames v; PrimaryTable := x;
     Action := Action v; WhereFilter := WhereFilter v; AliasMap := AliasMap v |}.
Definition setAction (v : ColX) (x : gostring) : ColX :=
  {| ColNames := ColNames v; TableNames := TableNames v; PrimaryTable := PrimaryTable v;
     Action := x; WhereFilter := WhereFilter v; AliasMap := AliasMap v |}.
Definition setWhereFilter (v : ColX) (x : gostring) : ColX :=
  {| ColNames := ColNames v; TableNames := TableNames v; PrimaryTable := PrimaryTable v;
     Action := Action v; WhereFilter := x; AliasMap := AliasMap v |}.
Definition setAliasMap (v : ColX) (x : gmap gostring gostring) : ColX :=
  {| ColNames := ColNames v; TableNames := TableNames v; PrimaryTable := PrimaryTable v;
     Action := Action v; WhereFilter := WhereFilter v; AliasMap := x |}.

(** [for _, name := range names { if name == tableNameStr { found = true; break } }] *)
Fixpoint found (names : list gostring) (tableNameStr : gostring) : bool :=
  match names with
  | [] => false
  | name :: rest => if eq name tableNameStr then true else found rest tableNameStr
  end.

(** The body of the [*ast.TableSource] case of [extractTableNames]; the
    source has it twice, for the left and for the right side. *)
Definition tableSourceCase (v : ColX) (Source : SourceNode) (AsName_O : gostring) : ColX :=
  match Source with
  | SourceTableName tableName =>
    let tableNameStr := Name_O tableName in
    let aliasStr := AsName_O in
    let v := if negb (eq aliasStr [])
             then setAliasMap v (<[aliasStr := tableNameStr]> (AliasMap v))
             else v in
    if negb (found (TableNames v) tableNameStr) && negb (eq tableNameStr [])
    then setTableNames v (TableNames v ++ [tableNameStr])
    else v
  | SourceOther => v
  end.

Fixpoint extractTableNamesOf (join : Join) (v : ColX) : ColX :=
  match join with
  | MkJoin Left Right =>
    let v :=
      match Left with
      | Some (TableSource Source AsName_O) => tableSourceCase v Source AsName_O
      | Some (JoinNode leftJoin) => extractTableNamesOf leftJoin v
      | Some OtherResultSet => v
      | None => v
      end in
    match Right with
    | Some (TableSource Source AsName_O) => tableSourceCase v Source AsName_O
    | Some (JoinNode rightJoin) => extractTableNamesOf rightJoin v
    | Some OtherResultSet => v
    | None => v
    end
  end.

(** [func (v *ColX) extractTableNames(join *ast.Join)] *)
Definition extractTableNames (v : ColX) (join : option Join) : ColX :=
  match join with
  | None => v
  | Some join => extractTableNamesOf join v
  end.

(** The loop [for alias, tableName := range v.AliasMap] over the entries
    in the order [entries]. *)
Definition substituteAliases (entries : list (gostring * gostring)) (filter : gostring)
  : gostring :=
  fold_left
    (λ filter '(alias, tableName),
       let tableNameReplacement := tableName ++ str "." in
       ReplaceAlias alias tableNameReplacement filter)
    entries filter.

(** The clean-up of a restored WHERE text. *)
Definition cleanFilter (entries : list (gostring * gostring)) (restored : gostring)
  : gostring :=
  let filter := restored in
  let filter := ReplaceAll filter (str "`") [] in
  let filter := ReplaceCharset filter in
  let filter := substituteAliases entries filter in
  let filter := ReplaceAll filter (str " AND ") (str " and ") in
  filter.

Section visitor.

(** Go leaves the order in which [range] walks a map open: [mapRange m]
    is the order the run time picks for [m]. *)
Variable mapRange : gmap gostring gostring → list (gostring * gostring).

(** [func (v *ColX) extractWhereFilter(whereExpr ast.ExprNode)];
    [extractWhereFilterFromExpr] has the same body. *)
Definition extractWhereFilter (v : ColX) (whereExpr : option ExprNode) : ColX :=
  match whereExpr with
  | Some whereExpr =>
    match Restore whereExpr with
    | inl buf => setWhereFilter v (cleanFilter (mapRange (AliasMap v)) buf)
    | inr _ => v
    end
  | None => v
  end.

Definition extractWhereFilterFromExpr (v : ColX) (whereExpr : option ExprNode) : ColX :=
  match whereExpr with
  | Some whereExpr =>
    match Restore whereExpr with
    | inl buf => setWhereFilter v (cleanFilter (mapRange (AliasMap v)) buf)
    | inr _ => v
    end
  | None => v
  end.

(** [if len(v.TableNames) > 0 { v.PrimaryTable = v.TableNames[0] }] *)
Definition setPrimaryFromTables (v : ColX) : ColX :=
  match TableNames v with
  | first :: _ => setPrimaryTable v first
  | [] => v
  end.

(** The body shared by the ALTER, CREATE and TRUNCATE cases, and run
    for each listed table of DROP. *)
Definition appendTable (v : ColX) (table : option TableName) : ColX :=
  match table with
  | Some table =>
    let tableName := Name_O table in
    if negb (eq tableName []) then setTableNames v (TableNames v ++ [tableName]) else v
  | None => v
  end.

(** [func (v *ColX) Enter(in ast.Node) (ast.Node, bool)]; the node is
    returned as it came. *)
Definition ColX_Enter (v : ColX) (in_ : NodeKind) : ColX * bool :=
  let v := match in_ with
           | ColumnName name => setColNames v (ColNames v ++ [name])
           | _ => v
           end in
  let v :=
    match in_ with
    | InsertStmt Table =>
      let v := setAction v (str "INSERT") in
      match Table with
      | Some {| TableRefs := Some refs |} => extractTableNames v (Some refs)
      | _ => v
      end
    | UpdateStmt TableRefs Where =>
      let v := setAction v (str "UPDATE") in
      let v := match TableRefs with
               | Some refs => setPrimaryFromTables (extractTableNames v (ast.TableRefs refs))
               | None => v
               end in
      match Where with
      | Some _ => extractWhereFilterFromExpr v Where
      | None => v
      end
    | DeleteStmt TableRefs Where =>
      let v := setAction v (str "DELETE") in
      let v := match TableRefs with
               | Some refs => setPrimaryFromTables (extractTableNames v (ast.TableRefs refs))
               | None => v
               end in
      extractWhereFilter v Where
    | SelectStmt From Where =>
      let v := setAction v (str "SELECT") in
      let v := match From with
               | Some {| TableRefs := Some refs |} => extractTableNames v (Some refs)
               | _ => v
               end in
      extractWhereFilter v Where
    | AlterTableStmt Table => appendTable (setAction v (str "ALTER")) Table
    | CreateTableStmt Table => appendTable (setAction v (str "CREATE")) Table
    | DropTableStmt Tables => fold_left appendTable Tables (setAction v (str "DROP"))
    | TruncateTableStmt Table => appendTable (setAction v (str "TRUNCATE")) Table
    | ColumnName _ | OtherNode => v
    end in
  (v, false).

(** [func (v *ColX) Leave(in ast.Node) (ast.Node, bool)] *)
Definition ColX_Leave (v : ColX) (in_ : NodeKind) : ColX * bool := (v, true).

#[local] Instance ColX_Visitor : Visitor ColX :=
  {| Enter := ColX_Enter; Leave := ColX_Leave |}.

Definition newColX : ColX :=
  {| ColNames := []; TableNames := []; PrimaryTable := []; Action := [];
     WhereFilter := []; AliasMap := ∅ |}.

(** [Extract]: the visitor after the walk of the statement. *)
Definition visit (rootNode : Node) : ColX := (Accept rootNode newColX).1.

Definition Extract (rootNode : Node)
  : list gostring * list gostring * gostring * gostring * gostring :=
  let v := visit rootNode in
  (ColNames v, TableNames v, Action v, WhereFilter v, PrimaryTable v).

End visitor.

(** *** PerTableFilterSplitter *)

(** The inner loop over [allTables], with its [break]. *)
Fixpoint hasTablePrefix (condition : gostring) (allTables : list gostring) : bool :=
  match allTables with
  | [] => false
  | tbl :: rest =>
    if Contains condition (tbl ++ str ".") then true
    else hasTablePrefix condition rest
  end.

(** One round of the loop over [conditions]: [relevantConditions] before
    the round, and after it. *)
Definition filterStep (tableName : gostring) (allTables : list gostring)
    (relevantConditions : list gostring) (condition : gostring) : list gostring :=
  let condition := TrimSpace condition in
  if Contains condition (tableName ++ str ".") then
    let condition := ReplaceAll condition (tableName ++ str ".") [] in
    relevantConditions ++ [condition]
  else
    if negb (hasTablePrefix condition allTables)
    then relevantConditions ++ [condition]
    else relevantConditions.

(** [func FilterWhereForTable(whereFilter string, tableName string,
    allTables []string) string] *)
Definition FilterWhereForTable (whereFilter tableName : gostring)
    (allTables : list gostring) : gostring :=
  if eq whereFilter [] then []
  else if length allTables <=? 1 then whereFilter
  else
    let conditions := Split whereFilter (str " and ") in
    let relevantConditions := fold_left (filterStep tableName allTables) conditions [] in
    if length relevantConditions =? 0 then []
    else strings.Join relevantConditions (str " and ").

(** *** DumpPlanGenerator: the statement loop of [runDump] *)

(** What a piece of code leaves: a value, or a run-time panic. *)
Inductive outcome (A : Type) :=
| Done (a : A)
| Panicked.
Arguments Done {A} a.
Arguments Panicked {A}.

(** Code that prints: standard output is the list of the texts printed,
    one per call of [fmt.Println] or [fmt.Printf]. *)
Definition io (A : Type) : Type := list gostring → outcome A * list gostring.

#[export] Instance io_ret : MRet io := λ A a out, (Done a, out).
#[export] Instance io_bind : MBind io := λ A B k m out,
  match m out with
  | (Done a, out) => k a out
  | (Panicked, out) => (Panicked, out)
  end.
Definition panic {A} : io A := λ out, (Panicked, out).
Definition Print (text : gostring) : io unit := λ out, (Done tt, out ++ [text]).

Fixpoint forRange {A} (xs : list A) (body : A → io unit) : io unit :=
  match xs with
  | [] => mret tt
  | x :: rest => body x ;; forRange rest body
  end.

Definition nl : gostring := ["010"%char].
Definition dquote : gostring := ["034"%char].

Definition Println (text : gostring) : io unit := Print (text ++ nl).

(** [s[0]] panics on the empty string, [s[0:2]] on a string shorter than
    two bytes. *)
Definition index0 (s : gostring) : io ascii :=
  match s with
  | c :: _ => mret c
  | [] => panic
  end.

Definition slice02 (s : gostring) : io gostring :=
  match s with
  | c :: d :: _ => mret [c; d]
  | _ => panic
  end.

(** [string(b)] for a byte [b]: the UTF-8 encoding of the rune [b]. *)
Definition stringOfByte (b : ascii) : gostring :=
  let n := byte b in
  if (n <? 128)%N then [b]
  else [ascii_of_N (192 + n / 64); ascii_of_N (128 + n mod 64)].

(** [runDump] builds [connOpts] from the trimmed flags. *)
Definition connOptions (user password host ip : gostring) : gostring :=
  let user := TrimSpace user in
  let password := TrimSpace password in
  let host := TrimSpace host in
  let ip := TrimSpace ip in
  let connTarget :=
    if negb (eq ip []) then ip
    else if negb (eq host []) then host
    else [] in
  let connOpts := [] in
  let connOpts := if negb (eq connTarget []) then connOpts ++ str " -h " ++ connTarget
                  else connOpts in
  let connOpts := if negb (eq user []) then connOpts ++ str " -u " ++ user
                  else connOpts in
  let connOpts := if negb (eq password []) then connOpts ++ str " --password=" ++ password
                  else connOpts in
  connOpts.

Section dump.

(** [strings.ToLower], which maps runes through the Unicode case
    tables. *)
Variable ToLower : gostring → gostring.
Variable mapRange : gmap gostring gostring → list (gostring * gostring).
Variables connOpts database : gostring.

Definition isUpdateOrDelete (action : gostring) : bool :=
  eq action (str "UPDATE") || eq action (str "DELETE").

Definition tablesToDump (tableNames : list gostring) (action primaryTable : gostring)
  : list gostring :=
  if isUpdateOrDelete action && negb (eq primaryTable [])
  then [primaryTable] else tableNames.

(** The loop that strips every table prefix from the whole filter. *)
Definition allConditionsFilter (whereFilter : gostring) (tableNames : list gostring)
  : gostring :=
  fold_left (λ filter tbl, ReplaceAll filter (tbl ++ str ".") []) tableNames whereFilter.

(** One round of the loop that prints the JOINs of step 1. *)
Definition printJoin (tableName tbl : gostring) : io unit :=
  if negb (eq tbl tableName) then
    first ← index0 (ToLower tbl);
    let alias := stringOfByte first in
    firstOfTable ← index0 (ToLower tableName);
    alias ← (if eq alias (stringOfByte firstOfTable)
             then slice02 (ToLower tbl) else mret alias);
    Print (str "JOIN " ++ tbl ++ str " " ++ alias ++ str " ON <join_condition> ")
  else mret tt.

Definition printHelper (tableNames : list gostring) (whereFilter tableName : gostring)
  : io unit :=
  Println (str "# To get exact rows matching all JOIN conditions:") ;;
  Println (str "# Step 1: Get matching IDs") ;;
  Print (str "# mysql -N -e " ++ dquote ++ str "SELECT e.id FROM " ++ tableName ++ str " e ") ;;
  forRange tableNames (printJoin tableName) ;;
  Print (str "WHERE " ++ whereFilter ++ dquote ++ str " " ++ database
         ++ str " > /tmp/" ++ tableName ++ str "_ids.txt" ++ nl) ;;
  Println (str "# Step 2: Dump exact rows") ;;
  Print (str "# mysqldump" ++ connOpts ++ str " --where=" ++ dquote
         ++ str "id IN ($(cat /tmp/" ++ tableName
         ++ str "_ids.txt | tr '\n' ',' | sed 's/,$//' ))" ++ dquote ++ str " "
         ++ database ++ str " " ++ tableName ++ nl) ;;
  Println (str "#") ;;
  Println (str "# Or use partial filter (may include extra rows):").

(** The export directive of one table. *)
Definition printDump (tableSpecificFilter tableName : gostring) : io unit :=
  if negb (eq tableSpecificFilter []) then
    Print (str "mysqldump" ++ connOpts ++ str " --where=" ++ dquote ++ tableSpecificFilter
           ++ dquote ++ str " " ++ database ++ str " " ++ tableName ++ nl)
  else
    Print (str "mysqldump" ++ connOpts ++ str " " ++ database ++ str " " ++ tableName ++ nl).

(** One round of the loop over [tablesToDump]. *)
Definition dumpTable (tableNames : list gostring) (action whereFilter primaryTable : gostring)
    (tableName : gostring) : io unit :=
  let tableSpecificFilter := FilterWhereForTable whereFilter tableName tableNames in
  (if isUpdateOrDelete action && eq tableName primaryTable && (1 <? length tableNames)
   then
     let allConditionsFilter := allConditionsFilter whereFilter tableNames in
     if negb (eq allConditionsFilter tableSpecificFilter) && negb (eq tableSpecificFilter [])
     then printHelper tableNames whereFilter tableName
     else mret tt
   else mret tt) ;;
  printDump tableSpecificFilter tableName.

(** One round of the loop over the statements, from what [Extract]
    returned. *)
Definition dumpFacts (tableNames : list gostring) (action whereFilter primaryTable : gostring)
  : io unit :=
  if length tableNames =? 0 then Println (str "# No tables found in SQL statement")
  else
    forRange (tablesToDump tableNames action primaryTable)
             (dumpTable tableNames action whereFilter primaryTable).

Definition dumpStatement (stmtNode : Node) : io unit :=
  let '(_, tableNames, action, whereFilter, primaryTable) := Extract mapRange stmtNode in
  dumpFacts tableNames action whereFilter primaryTable.

(** The statement loop of [runDump]. *)
Definition dumpStatements (stmtNodes : list Node) : io unit :=
  forRange stmtNodes dumpStatement.

End dump.

(** Lower case for ASCII letters; the other bytes stay. *)
Definition asciiToLower (s : gostring) : gostring :=
  map (λ c, let n := byte c in
            if ((65 <=? n) && (n <=? 90))%N then ascii_of_N (n + 32) else c) s.

(** *** The commands: [runParse], [runDump] and [runCheck] *)

(** The global flags. *)
Record Flags := {
  fileInput : gostring;
  user : gostring;
  password : gostring;
  host : gostring;
  ip : gostring;
  database : gostring;
}.

(** [for idx, x := range xs]. *)
Fixpoint forRangeIndexed {A} (idx : nat) (xs : list A) (body : nat → A → io unit) : io unit :=
  match xs with
  | [] => mret tt
  | x :: rest => body idx x ;; forRangeIndexed (S idx) rest body
  end.

(** [%v] of a [[]string]: the elements between brackets, a space between
    two of them. *)
Definition formatStrings (elems : list gostring) : gostring :=
  str "[" ++ strings.Join elems (str " ") ++ str "]".

(** [%d] of a non-negative [int]. *)
Definition formatInt (n : nat) : gostring := str (pretty n).

Section commands.

(** [os.ReadFile]: the content of the file, or the text of the error.
    [parser.New().ParseSQL]: the statement nodes and the error, [None]
    for [nil]; an [error] is modelled by the text [%v] prints for it. *)
Variable ReadFile : gostring → gostring + gostring.
Variable ParseSQL : gostring → list Node * option gostring.
Variable ToLower : gostring → gostring.
Variable mapRange : gmap gostring gostring → list (gostring * gostring).

(** [func getSQLInput(args []string) (string, error)] *)
Definition getSQLInput (flags : Flags) (args : list gostring) : gostring + gostring :=
  if negb (eq (fileInput flags) []) then
    match ReadFile (fileInput flags) with
    | inr err => inr (str "error reading file: " ++ err)
    | inl content => inl content
    end
  else
    match args with
    | [] => inr (str "no SQL statement provided")
    | first :: _ => inl first
    end.

(** [func ParseAll(sql string) ([]ast.StmtNode, error)] *)
Definition ParseAll (sql : gostring) : list Node + gostring :=
  let '(stmtNodes, err) := ParseSQL sql in
  match err with
  | Some err => inr err
  | None => inl stmtNodes
  end.

(** [func CheckSQLSyntax(sql string) error] *)
Definition CheckSQLSyntax (sql : gostring) : option gostring :=
  let '(_, err) := ParseSQL sql in err.

(** One round of the statement loop of [runParse]. *)
Definition printReport (count idx : nat) (stmtNode : Node) : io unit :=
  let '(colNames, tableNames, action, whereFilter, _) := Extract mapRange stmtNode in
  (if 1 <? count then
     (if 0 <? idx then Println (str "---") else mret tt) ;;
     Print (str "Statement " ++ formatInt (idx + 1) ++ str ":" ++ nl)
   else mret tt) ;;
  Print (str "Columns: " ++ formatStrings colNames ++ nl) ;;
  Print (str "Tables: " ++ formatStrings tableNames ++ nl) ;;
  Print (str "Action: " ++ action ++ nl) ;;
  if negb (eq whereFilter []) then Print (str "WHERE filter: " ++ whereFilter ++ nl)
  else mret tt.

(** [func runParse(cmd *cobra.Command, args []string) error] *)
Definition runParse (flags : Flags) (args : list gostring) : io (option gostring) :=
  match getSQLInput flags args with
  | inr err => mret (Some err)
  | inl sql =>
    match ParseAll sql with
    | inr err => mret (Some (str "parse error: " ++ err))
    | inl stmtNodes =>
      forRangeIndexed 0 stmtNodes (printReport (length stmtNodes)) ;;
      mret None
    end
  end.

(** [runDump] assigns the trimmed values to the global flags. *)
Definition trimFlags (flags : Flags) : Flags :=
  {| fileInput := fileInput flags;
     user := TrimSpace (user flags);
     password := TrimSpace (password flags);
     host := TrimSpace (host flags);
     ip := TrimSpace (ip flags);
     database := TrimSpace (database flags) |}.

(** [func runDump(cmd *cobra.Command, args []string) error], with the
    global flags it leaves. *)
Definition runDump (flags : Flags) (args : list gostring)
  : io (Flags * option gostring) :=
  match getSQLInput flags args with
  | inr err => mret (flags, Some err)
  | inl sql =>
    match ParseAll sql with
    | inr err => mret (flags, Some (str "parse error: " ++ err))
    | inl stmtNodes =>
      let connOpts := connOptions (user flags) (password flags) (host flags) (ip flags) in
      let flags := trimFlags flags in
      dumpStatements ToLower mapRange connOpts (database flags) stmtNodes ;;
      mret (flags, None)
    end
  end.

(** [func runCheck(cmd *cobra.Command, args []string) error] *)
Definition runCheck (flags : Flags) (args : list gostring) : io (option gostring) :=
  match getSQLInput flags args with
  | inr err => mret (Some err)
  | inl sql =>
    match CheckSQLSyntax sql with
    | Some err => mret (Some (str "SQL syntax error: " ++ err))
    | None => Println (str "✓ SQL syntax is valid") ;; mret None
    end
  end.

End commands.

End cmd.

(* ===================================================================== *)
(** ** The specification's wording of the splitter and of the plan *)
(* ===================================================================== *)

Module Spec.
Import strings.

(** What happens to one atomic condition: kept with the target's prefix
    stripped, discarded, or kept as it is. *)
Definition attribute (target : gostring) (tables : list gostring) (condition : gostring)
  : option gostring :=
  if Contains condition (target ++ str ".")
  then Some (ReplaceAll condition (target ++ str ".") [])
  else if existsb (λ tbl, Contains condition (tbl ++ str ".")) tables then None
  else Some condition.

(** The splitter for a statement of more than one table, as the
    specification words it: split, attribute each condition, rejoin. *)
Definition perTableFilter (filter target : gostring) (tables : list gostring) : gostring :=
  Join (omap (attribute target tables) (Split filter (str " and "))) (str " and ").

(** The same with every condition trimmed of surrounding white space
    first. *)
Definition perTableFilterTrimmed (filter target : gostring) (tables : list gostring)
  : gostring :=
  Join (omap (attribute target tables) (TrimSpace <$> Split filter (str " and ")))
       (str " and ").




End Spec.

(* ===================================================================== *)
(** ** The vocabulary of the statements *)
(* ===================================================================== *)

Section vocabulary.
Import strings regexp ast cmd.

Variable mapRange : gmap gostring gostring → list (gostring * gostring).
Variables connOpts database : gostring.

(** *** Occurrences at the start of a word *)

(** The byte in front of the position after [a], in a text that has
    [before] in front of it. *)
Definition byteBefore (before : option ascii) (a : gostring) : option ascii :=
  match last a with
  | Some c => Some c
  | None => before
  end.

(** [pat] occurs in [s] only at the start of a word: no word character
    stands in front of an occurrence. *)
Fixpoint onlyAtWordStart (pat : gostring) (before : option ascii) (s : gostring) : bool :=
  (negb (HasPrefix s pat) || negb (isWord before))
  && match s with
     | [] => true
     | c :: s' => onlyAtWordStart pat (Some c) s'
     end.

Definition AtWordStart (pat : gostring) (before : option ascii) (s : gostring) : Prop :=
  ∀ a b, s = a ++ pat ++ b → isWord (byteBefore before a) = false.

(** *** The walk of a tree *)

(** The state of the visitor after the walk of a node: [Enter], then the
    children from left to right. *)
Fixpoint walk (n : Node) (v : ColX) : ColX :=
  match n with
  | MkNode self children =>
    (fix walkAll (children : list Node) (v : ColX) : ColX :=
       match children with
       | [] => v
       | child :: rest => walkAll rest (walk child v)
       end) children (ColX_Enter mapRange v self).1
  end.

(** The action [Enter] sets at a node, if the node is a statement it has a
    case for. *)
Definition actionOf (self : NodeKind) : option gostring :=
  match self with
  | InsertStmt _ => Some (str "INSERT")
  | UpdateStmt _ _ => Some (str "UPDATE")
  | DeleteStmt _ _ => Some (str "DELETE")
  | SelectStmt _ _ => Some (str "SELECT")
  | AlterTableStmt _ => Some (str "ALTER")
  | CreateTableStmt _ => Some (str "CREATE")
  | DropTableStmt _ => Some (str "DROP")
  | TruncateTableStmt _ => Some (str "TRUNCATE")
  | ColumnName _ | OtherNode => None
  end.

(** The actions of the statement nodes of a tree, in the order of the
    walk. *)
Fixpoint actions (n : Node) : list gostring :=
  match n with
  | MkNode self children =>
    option_list (actionOf self)
    ++ (fix actionsAll (children : list Node) : list gostring :=
          match children with
          | [] => []
          | child :: rest => actions child ++ actionsAll rest
          end) children
  end.

(** The column names of a tree, in the order of the walk. *)
Fixpoint columns (n : Node) : list gostring :=
  match n with
  | MkNode self children =>
    match self with ColumnName name => [name] | _ => [] end
    ++ (fix columnsAll (children : list Node) : list gostring :=
          match children with
          | [] => []
          | child :: rest => columns child ++ columnsAll rest
          end) children
  end.

(** The visitor's fields other than the column names. *)
Definition facts (v : ColX)
  : list gostring * gostring * gostring * gostring * gmap gostring gostring :=
  (TableNames v, PrimaryTable v, Action v, WhereFilter v, AliasMap v).

(** *** Statements and their WHERE *)

(** The WHERE expression of a statement node, and the node with another
    one. *)
Definition whereOf (self : NodeKind) : option ExprNode :=
  match self with
  | UpdateStmt _ Where | DeleteStmt _ Where | SelectStmt _ Where => Where
  | _ => None
  end.


(** [DROP TABLE users, users]. *)
Definition dropUsersTwice : Node :=
  MkNode (DropTableStmt [Some {| Name_O := str "users" |}; Some {| Name_O := str "users" |}]) [].

Definition tableSource (name alias : string) : option ResultSetNode :=
  Some (TableSource (SourceTableName {| Name_O := str name |}) (str alias)).

Definition column (name : string) : Node := MkNode (ColumnName (str name)) [].


(** [INSERT INTO archive (name) SELECT u.name FROM users u WHERE u.active = 1]. *)
Definition selectActiveUsers : Node :=
  MkNode (SelectStmt (Some {| TableRefs := Some (MkJoin (tableSource "users" "u") None) |})
                     (Some {| Restore := inl (str "`u`.`active`=1") |}))
         [column "name"; column "active"].

Definition insertSelect : Node :=
  MkNode (InsertStmt (Some {| TableRefs := Some (MkJoin (tableSource "archive" EmptyString) None) |}))
         [selectActiveUsers; column "name"].

(** *** Alias prefixes and identifiers *)

(** [\b<alias>\.] matches at the head of [s], which has [before] in front
    of it. *)
Definition aliasAt (alias : gostring) (before : option ascii) (s : gostring) : bool :=
  wordBoundary before (head s) && HasPrefix s (alias ++ str ".").

(** [\b<alias>\.] matches somewhere in [s]. *)
Fixpoint hasAliasPrefix (alias : gostring) (before : option ascii) (s : gostring) : bool :=
  aliasAt alias before s
  || match s with
     | [] => false
     | c :: s' => hasAliasPrefix alias (Some c) s'
     end.

(** An identifier: letters, digits and underscores, at least one. *)
Definition isIdentifier (name : gostring) : bool :=
  negb (eq name []) && forallb isWordChar name.

(** The aliases and the table names of the entries are identifiers. *)
Definition identifierEntries (entries : list (gostring * gostring)) : bool :=
  forallb (λ '(alias, tableName), isIdentifier alias && isIdentifier tableName) entries.

(** No table name of the entries is an alias of them. *)
Definition noTableIsAlias (entries : list (gostring * gostring)) : bool :=
  forallb (λ '(_, tableName), forallb (λ '(alias, _), negb (eq tableName alias)) entries)
          entries.

(** *** Texts with charset-prefixed literals *)






(** *** Export directives in the output *)

(** An export directive is a text printed by one of the two calls of
    [Printf] whose format starts with [mysqldump]. *)
Definition isDirective (text : gostring) : bool := HasPrefix text (str "mysqldump").

Definition directivesOf (out : list gostring) : list gostring := List.filter isDirective out.

(** The directive of a table, in the specification's words: the [--where]
    clause is there when the per-table filter is not empty. *)
Definition exportDirective (tableNames : list gostring) (whereFilter tableName : gostring)
  : gostring :=
  let tableFilter := FilterWhereForTable whereFilter tableName tableNames in
  str "mysqldump" ++ connOpts
  ++ (if eq tableFilter [] then []
      else str " --where=" ++ dquote ++ tableFilter ++ dquote)
  ++ str " " ++ database ++ str " " ++ tableName ++ nl.

(** Code that prints no directive. *)
Definition quiet {A} (m : io A) : Prop :=
  ∀ out, directivesOf (m out).2 = directivesOf out.

(** [UPDATE ab JOIN a ON ab.id = a.id SET ab.v = 1
     WHERE ab.x = 1 AND a.y = 2]. *)
Definition updateShortNames : Node :=
  MkNode (UpdateStmt
            (Some {| TableRefs := Some (MkJoin (tableSource "ab" EmptyString) (tableSource "a" EmptyString)) |})
            (Some {| Restore := inl (str "`ab`.`x`=1 AND `a`.`y`=2") |}))
         [column "id"; column "id"; column "v"; column "x"; column "y"].

(** *** The nodes of a tree, the leaves of a join tree *)

(** The nodes of a tree, in the order of the walk. *)
Fixpoint nodes (n : Node) : list NodeKind :=
  match n with
  | MkNode self children =>
    self :: (fix nodesAll (children : list Node) : list NodeKind :=
               match children with
               | [] => []
               | child :: rest => nodes child ++ nodesAll rest
               end) children
  end.

(** [Enter] at each node of a list, in its order. *)
Definition enterAll (kinds : list NodeKind) (v : ColX) : ColX :=
  fold_left (λ v self, (ColX_Enter mapRange v self).1) kinds v.

Definition isDDL (self : NodeKind) : bool :=
  match self with
  | AlterTableStmt _ | CreateTableStmt _ | DropTableStmt _ | TruncateTableStmt _ => true
  | _ => false
  end.

Definition isUpdateOrDeleteStmt (self : NodeKind) : bool :=
  match self with
  | UpdateStmt _ _ | DeleteStmt _ _ => true
  | _ => false
  end.

(** The join tree a statement node hands to [extractTableNames]. *)
Definition joinOf (self : NodeKind) : option Join :=
  match self with
  | InsertStmt (Some refs) | SelectStmt (Some refs) _
  | UpdateStmt (Some refs) _ | DeleteStmt (Some refs) _ => TableRefs refs
  | _ => None
  end.

(** The table sources of a join tree whose source is a table name, left
    before right: the table name and the alias of each. *)
Fixpoint leaves (join : Join) : list (gostring * gostring) :=
  match join with
  | MkJoin Left Right =>
    match Left with
    | Some (TableSource (SourceTableName tableName) AsName_O) =>
      [(Name_O tableName, AsName_O)]
    | Some (JoinNode leftJoin) => leaves leftJoin
    | _ => []
    end
    ++ match Right with
       | Some (TableSource (SourceTableName tableName) AsName_O) =>
         [(Name_O tableName, AsName_O)]
       | Some (JoinNode rightJoin) => leaves rightJoin
       | _ => []
       end
  end.

Definition leavesOf (join : option Join) : list (gostring * gostring) :=
  match join with Some join => leaves join | None => [] end.

(** The names of a list that are not empty and not in [seen], each at its
    first occurrence. *)
Fixpoint firstSeen (seen names : list gostring) : list gostring :=
  match names with
  | [] => []
  | name :: rest =>
    if bool_decide (name ∈ seen) || eq name [] then firstSeen seen rest
    else name :: firstSeen (seen ++ [name]) rest
  end.

(** The table of the last leaf that carries the alias. *)
Definition lastWithAlias (alias : gostring) (sources : list (gostring * gostring))
  : option gostring :=
  fst <$> last (filter (λ leaf, leaf.2 = alias) sources).

(** The alias map after the leaves: a leaf with an alias sets its
    entry. *)
Definition registerAliases (sources : list (gostring * gostring))
    (aliases : gmap gostring gostring) : gmap gostring gostring :=
  fold_left (λ aliases leaf, if eq leaf.2 [] then aliases else <[leaf.2 := leaf.1]> aliases)
            sources aliases.

(** The names a DROP lists, without the [nil] and the empty ones. *)
Definition listedNames (Tables : list (option TableName)) : list gostring :=
  omap (λ table, match table with
                 | Some table => if eq (Name_O table) [] then None else Some (Name_O table)
                 | None => None
                 end) Tables.

(** The visitor after the table sources [sources] of a join tree. *)
Definition joined (v : ColX) (sources : list (gostring * gostring)) : ColX :=
  {| ColNames := ColNames v;
     TableNames := TableNames v ++ firstSeen (TableNames v) sources.*1;
     PrimaryTable := PrimaryTable v;
     Action := Action v;
     WhereFilter := WhereFilter v;
     AliasMap := registerAliases sources (AliasMap v) |}.

(** The table names a node adds to a tables sequence [seen]. *)
Definition tablesAt (seen : list gostring) (self : NodeKind) : list gostring :=
  match self with
  | AlterTableStmt Table | CreateTableStmt Table | TruncateTableStmt Table =>
    listedNames [Table]
  | DropTableStmt Tables => listedNames Tables
  | InsertStmt _ | UpdateStmt _ _ | DeleteStmt _ _ | SelectStmt _ _ =>
    firstSeen seen (leavesOf (joinOf self)).*1
  | ColumnName _ | OtherNode => []
  end.

(** The column name of a node. *)
Definition columnAt (self : NodeKind) : list gostring :=
  match self with ColumnName name => [name] | _ => [] end.

(** [DROP TABLE users, orders, products]. *)
Definition dropThree : Node :=
  MkNode (DropTableStmt [Some {| Name_O := str "users" |}; Some {| Name_O := str "orders" |};
                         Some {| Name_O := str "products" |}]) [].

(** [DELETE FROM users WHERE id IN (SELECT user_id FROM banned b WHERE b.active = 1)]. *)
Definition deleteWithSubquery : Node :=
  MkNode (DeleteStmt (Some {| TableRefs := Some (MkJoin (tableSource "users" EmptyString) None) |})
                     (Some {| Restore := inl (str "`id` IN (SELECT `user_id` FROM `banned` AS `b` WHERE `b`.`active`=1)") |}))
         [column "id";
          MkNode (SelectStmt
                    (Some {| TableRefs := Some (MkJoin (tableSource "banned" "b") None) |})
                    (Some {| Restore := inl (str "`b`.`active`=1") |}))
                 [column "user_id"; column "active"]].

(** *** Runs that panic and runs that do not *)

(** Code that does not panic, whatever was printed before. *)
Definition safe {A} (m : io A) : Prop := ∀ out, (m out).1 ≠ Panicked.

(** Code that panics, whatever was printed before. *)
Definition panics {A} (m : io A) : Prop := ∀ out, (m out).1 = Panicked.

(** *** The report of [runParse] *)

(** The header of a statement and the separator between two statements,
    as [runParse] prints them, and the texts printed that are one. *)
Definition headerOf (number : nat) : gostring :=
  str "Statement " ++ formatInt number ++ str ":" ++ nl.

Definition separator : gostring := str "---" ++ nl.

Definition isHeader (text : gostring) : bool := HasPrefix text (str "Statement ").

Definition isSeparator (text : gostring) : bool := eq text separator.

(** The texts one round of the statement loop prints: the separator and
    the header when there are several statements, then the report. *)
Definition reportOf (count idx : nat) (stmtNode : Node) : list gostring :=
  let '(colNames, tableNames, action, whereFilter, _) := Extract mapRange stmtNode in
  (if 1 <? count
   then (if 0 <? idx then [separator] else []) ++ [headerOf (idx + 1)]
   else [])
  ++ [str "Columns: " ++ formatStrings colNames ++ nl;
      str "Tables: " ++ formatStrings tableNames ++ nl;
      str "Action: " ++ action ++ nl]
  ++ (if eq whereFilter [] then [] else [str "WHERE filter: " ++ whereFilter ++ nl]).

End vocabulary.

(* ===================================================================== *)
(** ** Facts about the [strings] functions *)
(* ===================================================================== *)

Section strings_facts.
Import strings.

Lemma eq_spec (a b : gostring) : eq a b = true ↔ a = b.
Proof.
  revert b. induction a as [|x a IH]; intros [|y b]; simpl; try (split; congruence).
  rewrite andb_true_iff, Ascii.eqb_eq, IH. split.
  - by intros [-> ->].
  - intros [= -> ->]. by split.
Qed.

Lemma eq_refl (a : gostring) : eq a a = true.
Proof. by apply eq_spec. Qed.

Lemma eq_false (a b : gostring) : eq a b = false ↔ a ≠ b.
Proof. rewrite <- eq_spec. destruct (eq a b); split; congruence. Qed.

Lemma HasPrefix_spec (s p : gostring) : HasPrefix s p = true ↔ ∃ k, s = p ++ k.
Proof.
  revert s. induction p as [|x p IH]; intros s; simpl.
  - split; [intros _; by exists s | reflexivity].
  - destruct s as [|c s].
    + split; [done | intros [k [=]]].
    + destruct (Ascii.eqb_spec x c) as [->|Hne].
      * rewrite IH. split; intros [k Hk]; exists k; [by rewrite Hk | by injection Hk].
      * split; [done | intros [k [= ? ?]]; done].
Qed.

Lemma HasPrefix_app (p k : gostring) : HasPrefix (p ++ k) p = true.
Proof. apply HasPrefix_spec. by exists k. Qed.

Lemma Contains_spec (s sub : gostring) :
  Contains s sub = true ↔ ∃ a b, s = a ++ sub ++ b.
Proof.
  induction s as [|c s IH]; simpl.
  - rewrite orb_false_r, HasPrefix_spec. split.
    + intros [k Hk]. by exists [], k.
    + intros (a & b & Hab). destruct a; [by exists b |]. done.
  - rewrite orb_true_iff, HasPrefix_spec, IH. split.
    + intros [[k Hk] | (a & b & Hab)]; [by exists [], k |].
      exists (c :: a), b. by rewrite Hab.
    + intros (a & b & Hab). destruct a as [|x a]; [left; by exists b |].
      right. injection Hab as -> ->. by exists a, b.
Qed.

Lemma Contains_false (s sub : gostring) :
  Contains s sub = false ↔ ∀ a b, s ≠ a ++ sub ++ b.
Proof.
  rewrite <- not_true_iff_false, Contains_spec. split.
  - intros H a b Hab. apply H. by exists a, b.
  - intros H (a & b & Hab). by apply (H a b).
Qed.

(** Dropping the bytes of a matched occurrence one by one is dropping
    them at once. *)
Lemma replaceFrom_drop old new k s :
  replaceFrom old new k s = replaceFrom old new 0 (drop k s).
Proof.
  revert k. induction s as [|c s IH]; intros [|k]; simpl; done.
Qed.

Lemma ReplaceAll_nil old new : ReplaceAll [] old new = [].
Proof. by destruct old. Qed.

Lemma ReplaceAll_match old new rest :
  old ≠ [] → ReplaceAll (old ++ rest) old new = new ++ ReplaceAll rest old new.
Proof.
  destruct old as [|o old]; [done | intros _]. unfold ReplaceAll.
  change ((o :: old) ++ rest) with (o :: (old ++ rest)).
  cbn [replaceFrom]. change (o :: old ++ rest) with ((o :: old) ++ rest).
  rewrite HasPrefix_app. f_equal. rewrite replaceFrom_drop. f_equal.
  cbn [length]. rewrite Nat.sub_1_r. cbn [Nat.pred].
  by rewrite drop_app_length.
Qed.

Lemma ReplaceAll_nomatch old new c s :
  old ≠ [] → HasPrefix (c :: s) old = false →
  ReplaceAll (c :: s) old new = c :: ReplaceAll s old new.
Proof.
  destruct old as [|o old]; [done | intros _ Hp]. unfold ReplaceAll.
  cbn [replaceFrom]. by rewrite Hp.
Qed.

(** Induction along the scan of [ReplaceAll]. *)
Lemma scan_ind (old : gostring) (Hold : old ≠ []) (P : gostring → Prop) :
  P [] →
  (∀ rest, P rest → P (old ++ rest)) →
  (∀ c s, HasPrefix (c :: s) old = false → P s → P (c :: s)) →
  ∀ s, P s.
Proof.
  intros Hnil Hmatch Hstep s.
  induction s as [s IH] using (induction_ltof1 _ (@length ascii)). unfold ltof in IH.
  destruct s as [|c s]; [done |].
  destruct (HasPrefix (c :: s) old) eqn:Hp.
  - apply HasPrefix_spec in Hp as [k Hk]. rewrite Hk.
    destruct old as [|o old]; [done |].
    apply Hmatch, IH. rewrite Hk. rewrite length_app. simpl. lia.
  - apply Hstep; [done |]. apply IH. simpl. lia.
Qed.

Lemma splitFrom_drop sep k cur s :
  k ≤ length s → splitFrom sep k cur s = splitFrom sep 0 cur (drop k s).
Proof.
  revert k. induction s as [|c s IH]; intros [|k] Hk; simpl in *; try done; try lia.
  apply IH. lia.
Qed.

Lemma splitFrom_match sep cur rest :
  sep ≠ [] → splitFrom sep 0 cur (sep ++ rest) = rev cur :: splitFrom sep 0 [] rest.
Proof.
  destruct sep as [|o sep]; [done | intros _].
  change ((o :: sep) ++ rest) with (o :: (sep ++ rest)).
  cbn [splitFrom]. change (o :: sep ++ rest) with ((o :: sep) ++ rest).
  rewrite HasPrefix_app. f_equal. cbn [length]. rewrite Nat.sub_1_r. cbn [Nat.pred].
  rewrite splitFrom_drop; [| rewrite length_app; lia].
  by rewrite drop_app_length.
Qed.

Lemma splitFrom_nomatch sep cur c s :
  HasPrefix (c :: s) sep = false →
  splitFrom sep 0 cur (c :: s) = splitFrom sep 0 (c :: cur) s.
Proof. intros Hp. cbn [splitFrom]. by rewrite Hp. Qed.

(** Removing every occurrence of [old] leaves the pieces between the
    occurrences, one after the other. *)
Lemma splitFrom_concat sep cur s :
  sep ≠ [] → concat (splitFrom sep 0 cur s) = rev cur ++ ReplaceAll s sep [].
Proof.
  intros Hsep. revert cur. induction s as [|rest IH|c s Hp IH] using (scan_ind sep Hsep); intros cur.
  - rewrite ReplaceAll_nil. simpl. by rewrite !app_nil_r.
  - rewrite splitFrom_match, ReplaceAll_match by done. simpl. by rewrite IH.
  - rewrite splitFrom_nomatch, ReplaceAll_nomatch by done.
    rewrite IH. simpl. by rewrite <- app_assoc.
Qed.

Lemma ReplaceAll_concat_Split s old :
  old ≠ [] → ReplaceAll s old [] = concat (Split s old).
Proof.
  intros Hold. unfold Split. destruct old as [|o old]; [done |].
  by rewrite splitFrom_concat.
Qed.

End strings_facts.

(* ===================================================================== *)
(** ** PerTableFilterSplitter *)
(* ===================================================================== *)

Section splitter.
Import strings cmd.

Lemma HasPrefix_nil_dot (name : gostring) : HasPrefix [] (name ++ str ".") = false.
Proof. by destruct name. Qed.

Lemma Contains_nil_dot (name : gostring) : Contains [] (name ++ str ".") = false.
Proof. simpl. by rewrite HasPrefix_nil_dot. Qed.

Lemma dot_nonempty (name : gostring) : name ++ str "." ≠ [].
Proof. by destruct name. Qed.

Lemma hasTablePrefix_existsb condition allTables :
  hasTablePrefix condition allTables
  = existsb (λ tbl, Contains condition (tbl ++ str ".")) allTables.
Proof.
  induction allTables as [|tbl rest IH]; simpl; [done |].
  rewrite IH. by destruct (Contains condition (tbl ++ str ".")).
Qed.

(** A round of the loop appends what the condition is attributed to. *)
Lemma filterStep_attribute tableName allTables relevantConditions condition :
  filterStep tableName allTables relevantConditions condition
  = relevantConditions
    ++ option_list (Spec.attribute tableName allTables (TrimSpace condition)).
Proof.
  unfold filterStep, Spec.attribute. rewrite hasTablePrefix_existsb.
  destruct (Contains _ (tableName ++ _)); [done |].
  destruct (existsb _ _); simpl; by rewrite ?app_nil_r.
Qed.

Lemma fold_filterStep tableName allTables conditions relevantConditions :
  fold_left (filterStep tableName allTables) conditions relevantConditions
  = relevantConditions
    ++ omap (Spec.attribute tableName allTables) (TrimSpace <$> conditions).
Proof.
  revert relevantConditions.
  induction conditions as [|c cs IH]; intros acc; simpl; [by rewrite app_nil_r |].
  rewrite IH, filterStep_attribute, <- app_assoc. f_equal.
  by destruct (Spec.attribute _ _ _).
Qed.

Lemma FilterWhereForTable_multi whereFilter tableName allTables :
  1 < length allTables →
  FilterWhereForTable whereFilter tableName allTables
  = Join (fold_left (filterStep tableName allTables) (Split whereFilter (str " and ")) [])
         (str " and ").
Proof.
  intros Hlen. unfold FilterWhereForTable.
  destruct (eq whereFilter []) eqn:Hw.
  - apply eq_spec in Hw as ->. rewrite fold_filterStep. cbn [Split str list_ascii_of_string
      splitFrom rev fmap list_fmap app omap list_omap].
    change (TrimSpace []) with (@nil ascii).
    unfold Spec.attribute. rewrite Contains_nil_dot.
    replace (existsb _ allTables) with false; [done |].
    symmetry. apply not_true_iff_false. intros (tbl & _ & H)%existsb_exists.
    by rewrite Contains_nil_dot in H.
  - destruct (Nat.leb_spec (length allTables) 1) as [|_]; [lia |].
    by destruct (fold_left _ _ _).
Qed.

(** C4: for a statement whose table list holds exactly one table,
    [FilterWhereForTable] returns the filter unchanged, whatever the target
    table. *)
Theorem FilterWhereForTable_single_table (whereFilter tableName table : gostring) :
  FilterWhereForTable whereFilter tableName [table] = whereFilter.
Proof.
  unfold FilterWhereForTable. destruct (eq whereFilter []) eqn:Hw; [| done].
  by apply eq_spec in Hw.
Qed.

(** C1, as the claim states it, fails: a condition is trimmed of white
    space before it is classified and kept, so the filter of
    [WHERE u.note = 'tom and  jerry'] loses a space of its literal. *)
Lemma FilterWhereForTable_not_untrimmed :
  FilterWhereForTable (str "users.note='tom and  jerry'") (str "users")
    [str "users"; str "posts"]
  ≠ Spec.perTableFilter (str "users.note='tom and  jerry'") (str "users")
      [str "users"; str "posts"].
Proof. vm_compute. discriminate. Qed.

(** C1, amended: for a statement of more than one table,
    [FilterWhereForTable] splits the filter on [" and "], trims each
    condition of surrounding white space, keeps it with the target's
    prefix removed when it contains [<target>.], discards it when it
    contains another known table's prefix, keeps it (trimmed) otherwise,
    and joins what it kept with [" and "] in the original order. *)
Theorem FilterWhereForTable_splits (whereFilter tableName : gostring)
    (allTables : list gostring) :
  1 < length allTables →
  FilterWhereForTable whereFilter tableName allTables
  = Spec.perTableFilterTrimmed whereFilter tableName allTables.
Proof.
  intros Hlen. rewrite FilterWhereForTable_multi by done.
  by rewrite fold_filterStep.
Qed.

Lemma FilterWhereForTable_splits_witness :
  FilterWhereForTable (str "users.active=1 and posts.id=2 and x=3") (str "users")
    [str "users"; str "posts"]
  = str "active=1 and x=3".
Proof.
  rewrite (FilterWhereForTable_splits _ _ [str "users"; str "posts"]); [| simpl; lia].
  reflexivity.
Defined.

(** C9: for a statement of more than one table the filter is the join of
    what the rounds of the loop keep; a round takes a condition for the
    target's as soon as [<target>.] occurs anywhere in its (trimmed) text,
    and keeps the pieces of the text between all the occurrences of
    [<target>.]; it takes the condition for another table's as soon as that
    table's name and a dot occur anywhere in it, and drops it. *)
Theorem filterStep_classifies_by_substring (tableName : gostring)
    (allTables relevantConditions : list gostring) (condition trimmed : gostring) :
  trimmed = TrimSpace condition →
  (∀ whereFilter, 1 < length allTables →
     FilterWhereForTable whereFilter tableName allTables
     = Join (fold_left (filterStep tableName allTables)
               (Split whereFilter (str " and ")) []) (str " and "))
  ∧ (∀ before after, trimmed = before ++ (tableName ++ str ".") ++ after →
       filterStep tableName allTables relevantConditions condition
       = relevantConditions ++ [concat (Split trimmed (tableName ++ str "."))])
  ∧ (∀ other before after, other ∈ allTables →
       Contains trimmed (tableName ++ str ".") = false →
       trimmed = before ++ (other ++ str ".") ++ after →
       filterStep tableName allTables relevantConditions condition = relevantConditions).
Proof.
  intros ->. split; [| split].
  - intros whereFilter Hlen. by apply FilterWhereForTable_multi.
  - intros before after Hocc. unfold filterStep.
    replace (Contains _ (tableName ++ _)) with true.
    + by rewrite ReplaceAll_concat_Split by apply dot_nonempty.
    + symmetry. apply Contains_spec. by exists before, after.
  - intros other before after Hin Hno Hocc. unfold filterStep. rewrite Hno.
    rewrite hasTablePrefix_existsb.
    replace (existsb _ allTables) with true; [done |].
    symmetry. apply existsb_exists. exists other. split.
    + by apply list_elem_of_In.
    + apply Contains_spec. by exists before, after.
Qed.

Lemma filterStep_classifies_by_substring_witness :
  filterStep (str "users") [str "users"; str "posts"] []
    (str "note='users.x' or myusers.id=1")
  = [str "note='x' or myid=1"].
Proof.
  pose proof (filterStep_classifies_by_substring (str "users") [str "users"; str "posts"] []
                (str "note='users.x' or myusers.id=1") _ Logic.eq_refl) as (_ & Hkeep & _).
  rewrite (Hkeep (str "note='") (str "x' or myusers.id=1") Logic.eq_refl).
  reflexivity.
Defined.

End splitter.

(* ===================================================================== *)
(** ** The target's prefix in the per-table filter *)
(* ===================================================================== *)

Section target_prefix.
Import strings regexp cmd.

Lemma byteBefore_nil before : byteBefore before [] = before.
Proof. done. Qed.

Lemma byteBefore_cons before c a : byteBefore before (c :: a) = byteBefore (Some c) a.
Proof.
  unfold byteBefore. rewrite last_cons. by destruct (last a).
Qed.

Lemma byteBefore_app before l a : a ≠ [] → byteBefore before (l ++ a) = byteBefore None a.
Proof.
  intros Ha. unfold byteBefore. rewrite last_app.
  destruct (last a) eqn:Hl; [done |]. by apply last_None in Hl.
Qed.

Lemma AtWordStart_cons pat before c s :
  AtWordStart pat before (c :: s) → AtWordStart pat (Some c) s.
Proof.
  intros H a b ->. rewrite <- (byteBefore_cons before). by apply (H (c :: a) b).
Qed.

Lemma AtWordStart_head pat before s :
  AtWordStart pat before s → isWord before = true → HasPrefix s pat = false.
Proof.
  intros H Hw. apply not_true_iff_false. intros [k ->]%HasPrefix_spec.
  specialize (H [] k Logic.eq_refl). rewrite byteBefore_nil in H. congruence.
Qed.

Lemma onlyAtWordStart_spec pat before s :
  onlyAtWordStart pat before s = true ↔ AtWordStart pat before s.
Proof.
  revert before. induction s as [|c s IH]; intros before.
  - cbn [onlyAtWordStart]. rewrite andb_true_r. split.
    + intros H a b Hab. destruct a; [| done]. rewrite byteBefore_nil.
      destruct (isWord before); [| done].
      rewrite orb_false_r, negb_true_iff in H.
      assert (HasPrefix [] pat = true) by (apply HasPrefix_spec; by exists b). congruence.
    + intros H. destruct (isWord before) eqn:Hw; [| by rewrite orb_true_r].
      by rewrite (AtWordStart_head _ _ _ H Hw).
  - cbn [onlyAtWordStart]. rewrite andb_true_iff, IH. split.
    + intros [Hhead Htail] a b Hab. destruct a as [|x a].
      * rewrite byteBefore_nil. destruct (isWord before); [| done].
        rewrite orb_false_r, negb_true_iff in Hhead.
        assert (HasPrefix (c :: s) pat = true) by (apply HasPrefix_spec; by exists b).
        congruence.
      * injection Hab as -> ->. rewrite byteBefore_cons. by apply (Htail a b).
    + intros H. split; [| by eapply AtWordStart_cons].
      destruct (isWord before) eqn:Hw; [| by rewrite orb_true_r].
      by rewrite (AtWordStart_head _ _ _ H Hw).
Qed.

(** A text inside [s] inherits the property. *)
Lemma AtWordStart_infix pat s l x r :
  AtWordStart pat None s → s = l ++ x ++ r → AtWordStart pat None x.
Proof.
  intros H -> a b ->. destruct a as [|c a]; [done |].
  rewrite <- (byteBefore_app None l) by done.
  apply (H (l ++ c :: a) (b ++ r)). by rewrite <- !app_assoc.
Qed.

Lemma AtWordStart_after pat before c s :
  AtWordStart pat before (c :: s) → AtWordStart pat (Some c) s.
Proof. apply AtWordStart_cons. Qed.

(** What [TrimSpace] and [Split] return lies inside their argument. *)
Lemma trimRunes_suffix sp2 sp3 s : ∃ l, s = l ++ trimRunes sp2 sp3 s.
Proof.
  induction s as [s IH] using (induction_ltof1 _ (@length ascii)). unfold ltof in IH.
  destruct s as [|b1 s1]; [by exists [] |]. cbn [trimRunes].
  destruct (asciiSpace b1).
  { destruct (IH s1) as [l Hl]; [simpl; lia |]. exists (b1 :: l). simpl. by f_equal. }
  destruct s1 as [|b2 s2]; [by exists [] |].
  destruct (sp2 b1 b2).
  { destruct (IH s2) as [l Hl]; [simpl; lia |]. exists (b1 :: b2 :: l). simpl. by do 2 f_equal. }
  destruct s2 as [|b3 s3]; [by exists [] |].
  destruct (sp3 b1 b2 b3); [| by exists []].
  destruct (IH s3) as [l Hl]; [simpl; lia |]. exists (b1 :: b2 :: b3 :: l). simpl. by do 3 f_equal.
Qed.

Lemma TrimSpace_infix s : ∃ l r, s = l ++ TrimSpace s ++ r.
Proof.
  unfold TrimSpace, TrimRightSpace, TrimLeftSpace.
  destruct (trimRunes_suffix space2 space3 s) as [l Hl].
  set (t := trimRunes space2 space3 s) in *.
  destruct (trimRunes_suffix (λ b2 b1, space2 b1 b2) (λ b3 b2 b1, space3 b1 b2 b3) (rev t))
    as [r Hr].
  exists l, (rev r). rewrite <- rev_app_distr, <- Hr, rev_involutive. done.
Qed.

Lemma splitFrom_infix sep cur s piece :
  sep ≠ [] → piece ∈ splitFrom sep 0 cur s → ∃ a b, rev cur ++ s = a ++ piece ++ b.
Proof.
  intros Hsep. revert cur.
  induction s as [|rest IH|c s Hp IH] using (scan_ind sep Hsep); intros cur.
  - cbn [splitFrom]. intros ->%list_elem_of_singleton. exists [], []. by rewrite !app_nil_r.
  - rewrite splitFrom_match by done. intros [-> | Hin]%elem_of_cons.
    + by exists [], (sep ++ rest).
    + destruct (IH _ Hin) as (a & b & Hab). simpl in Hab. rewrite Hab.
      exists (rev cur ++ sep ++ a), b. by rewrite <- !app_assoc.
  - rewrite splitFrom_nomatch by done. intros Hin.
    destruct (IH _ Hin) as (a & b & Hab). exists a, b. rewrite <- Hab.
    simpl. by rewrite <- app_assoc.
Qed.

Lemma Split_infix s sep piece : sep ≠ [] → piece ∈ Split s sep → ∃ a b, s = a ++ piece ++ b.
Proof.
  intros Hsep Hin. unfold Split in Hin. destruct sep as [|o sep]; [done |].
  by apply splitFrom_infix in Hin.
Qed.

(** *** Removing every occurrence leaves none, for a prefix that occurs at
    word starts only *)

Variable tableName : gostring.
Hypothesis tableName_word : forallb isWordChar tableName = true.

Let prefix := tableName ++ str ".".

Lemma dot_not_word : isWordChar "." = false.
Proof. done. Qed.

(** What the output starts with, up to the first non-word byte, the input
    starts with, when a word character stands in front of it. *)
Lemma ReplaceAll_word_head (w : gostring) (d : ascii) (s : gostring) (before : option ascii) :
  forallb isWordChar w = true → isWordChar d = false →
  isWord before = true → AtWordStart prefix before s →
  HasPrefix (ReplaceAll s prefix []) (w ++ [d]) = true →
  HasPrefix s (w ++ [d]) = true.
Proof.
  intros Hw Hd. revert s before.
  induction w as [|e w IH]; intros s before Hbefore Hs Hout.
  - destruct s as [|c s]; [by rewrite ReplaceAll_nil in Hout |].
    rewrite ReplaceAll_nomatch in Hout;
      [done | apply dot_nonempty | by eapply AtWordStart_head].
  - apply andb_true_iff in Hw as [He Hw].
    destruct s as [|c s]; [by rewrite ReplaceAll_nil in Hout |].
    rewrite ReplaceAll_nomatch in Hout;
      [| apply dot_nonempty | by eapply AtWordStart_head].
    simpl in Hout |- *. destruct (Ascii.eqb_spec e c) as [->|]; [| done].
    apply (IH Hw s (Some c)); [done | by eapply AtWordStart_cons | done].
Qed.

Lemma ReplaceAll_word_head_unmatched (w : gostring) (d : ascii) (s : gostring)
    (before : option ascii) :
  forallb isWordChar w = true → isWordChar d = false →
  AtWordStart prefix before s → HasPrefix s prefix = false →
  HasPrefix (ReplaceAll s prefix []) (w ++ [d]) = true →
  HasPrefix s (w ++ [d]) = true.
Proof.
  intros Hw Hd Hs Hp Hout.
  destruct s as [|c s]; [by rewrite ReplaceAll_nil in Hout |].
  rewrite ReplaceAll_nomatch in Hout by (done || apply dot_nonempty).
  destruct w as [|e w]; [done |].
  apply andb_true_iff in Hw as [He Hw].
  simpl in Hout |- *. destruct (Ascii.eqb_spec e c) as [->|]; [| done].
  apply (ReplaceAll_word_head w d s (Some c)); try done.
  by eapply AtWordStart_cons.
Qed.

Lemma ReplaceAll_no_prefix_left (s : gostring) :
  AtWordStart prefix None s → Contains (ReplaceAll s prefix []) prefix = false.
Proof.
  induction s as [|rest IH|c s Hp IH] using (scan_ind prefix (dot_nonempty tableName)); intros Hs.
  - rewrite ReplaceAll_nil. apply Contains_nil_dot.
  - rewrite ReplaceAll_match by apply dot_nonempty. simpl. apply IH.
    apply (AtWordStart_infix _ _ prefix rest [] Hs). by rewrite app_nil_r.
  - pose proof Hp as Hp'.
    rewrite ReplaceAll_nomatch by (done || apply dot_nonempty).
    cbn [Contains]. rewrite IH, orb_false_r.
    2:{ apply (AtWordStart_infix _ _ [c] s [] Hs). by rewrite app_nil_r. }
    apply not_true_iff_false. intros Hout.
    rewrite <- (ReplaceAll_nomatch prefix []) in Hout by (done || apply dot_nonempty).
    apply (ReplaceAll_word_head_unmatched tableName "." (c :: s) None) in Hout; try done.
    change (tableName ++ ["."%char]) with prefix in Hout. congruence.
Qed.

(** Joining with [" and "] brings no occurrence of the prefix. *)
Lemma Contains_app_sep (x y : gostring) (c : ascii) (pat : gostring) :
  c ∉ pat → Contains (x ++ c :: y) pat = true →
  Contains x pat = true ∨ Contains y pat = true.
Proof.
  intros Hc (a & b & Hab)%Contains_spec.
  apply app_eq_inv in Hab as [(k & -> & Hk) | (k & -> & Hk)].
  - apply app_eq_inv in Hk as [(k' & -> & Hk') | (k' & -> & ->)].
    + destruct k' as [|c' k'].
      * left. apply Contains_spec. exists a, []. by rewrite !app_nil_r.
      * injection Hk' as <- _. exfalso. apply Hc. set_solver.
    + left. apply Contains_spec. by exists a, k'.
  - destruct k as [|c' k].
    + destruct pat as [|p pat].
      * left. apply Contains_spec. exists x, []. by rewrite !app_nil_r.
      * injection Hk as -> _. exfalso. apply Hc. set_solver.
    + injection Hk as _ ->. right. apply Contains_spec. by exists k, b.
Qed.

Lemma space_not_in_prefix : " "%char ∉ prefix.
Proof.
  unfold prefix. intros [Hin | Hin]%elem_of_app.
  - rewrite forallb_forall in tableName_word.
    apply list_elem_of_In, tableName_word in Hin. done.
  - by apply list_elem_of_singleton in Hin.
Qed.

Lemma and_has_no_prefix : Contains (str "and") prefix = false.
Proof.
  apply Contains_false. intros a b Hab.
  assert ("."%char ∈ str "and") as Hin.
  { rewrite Hab. unfold prefix. set_solver. }
  clear Hab. cbn in Hin.
  repeat (apply elem_of_cons in Hin as [Hin | Hin]; [discriminate |]).
  by apply elem_of_nil in Hin.
Qed.

Lemma Join_no_prefix (elems : list gostring) :
  Forall (λ e, Contains e prefix = false) elems →
  Contains (Join elems (str " and ")) prefix = false.
Proof.
  induction 1 as [|e elems He Helems IH]; [apply Contains_nil_dot |].
  destruct elems as [|e' elems]; [done |].
  change (Join (e :: e' :: elems) (str " and "))
    with (e ++ " "%char :: (str "and" ++ " "%char :: Join (e' :: elems) (str " and "))).
  apply not_true_iff_false.
  intros [H | H]%Contains_app_sep; [congruence | | apply space_not_in_prefix].
  apply Contains_app_sep in H as [H | H]; [| congruence | apply space_not_in_prefix].
  by rewrite and_has_no_prefix in H.
Qed.

End target_prefix.

Section target_prefix_claim.
Import strings regexp cmd.

(** C2, as the claim states it, fails: with a single table in the list the
    filter comes back as it is, target prefix included (the filter of
    [UPDATE users u SET ... WHERE u.id = 1]). *)
Lemma FilterWhereForTable_single_table_keeps_prefix :
  HasPrefix (FilterWhereForTable (str "users.id=1") (str "users") [str "users"])
            (str "users.") = true.
Proof. reflexivity. Qed.

(** With more than one table, one pass of removal can still leave the
    prefix where the pieces around a removed occurrence close up. *)
Example FilterWhereForTable_prefix_closes_up :
  FilterWhereForTable (str "t.name='tt..x'") (str "t") [str "t"; str "u"] = str "name='t.x'".
Proof. reflexivity. Qed.

(** C2, amended: for a table list of more than one table, a target table
    whose name is made of letters, digits and underscores, and a filter in
    which [<target>.] occurs only at the start of the filter or after a
    byte that is not a letter, digit or underscore, the per-table filter
    contains [<target>.] nowhere, so no condition of it has that prefix. *)
Theorem FilterWhereForTable_no_target_prefix (whereFilter tableName : gostring)
    (allTables : list gostring) :
  1 < length allTables →
  forallb isWordChar tableName = true →
  onlyAtWordStart (tableName ++ str ".") None whereFilter = true →
  Contains (FilterWhereForTable whereFilter tableName allTables) (tableName ++ str ".") = false.
Proof.
  intros Hlen Hname Hfilter. apply onlyAtWordStart_spec in Hfilter.
  rewrite FilterWhereForTable_splits by done. unfold Spec.perTableFilterTrimmed.
  apply Join_no_prefix; [done |]. apply Forall_forall. intros kept Hkept.
  apply list_elem_of_omap in Hkept as (condition & Hcondition & Hattr).
  apply list_elem_of_fmap in Hcondition as (raw & -> & Hraw).
  unfold Spec.attribute in Hattr.
  destruct (Contains (TrimSpace raw) (tableName ++ str ".")) eqn:Hocc.
  - injection Hattr as <-. apply ReplaceAll_no_prefix_left; [done |].
    apply Split_infix in Hraw as (a & b & Hab); [| done].
    destruct (TrimSpace_infix raw) as (l & r & Hlr).
    apply (AtWordStart_infix _ _ (a ++ l) (TrimSpace raw) (r ++ b) Hfilter).
    rewrite Hab. rewrite Hlr at 1. by rewrite <- !app_assoc.
  - destruct (existsb _ allTables); [done |]. by injection Hattr as <-.
Qed.

Lemma FilterWhereForTable_no_target_prefix_witness :
  Contains
    (FilterWhereForTable (str "users.active=1 and posts.owner=users.id and (users.age>3)")
       (str "users") [str "users"; str "posts"])
    (str "users.") = false.
Proof.
  apply (FilterWhereForTable_no_target_prefix _ (str "users") [str "users"; str "posts"]).
  - simpl. lia.
  - reflexivity.
  - reflexivity.
Defined.

End target_prefix_claim.

(* ===================================================================== *)
(** ** The Extractor: the walk of the visitor *)
(* ===================================================================== *)

Section extractor.
Import strings regexp ast cmd.

Variable mapRange : gmap gostring gostring → list (gostring * gostring).
Local Abbreviation walk := (walk mapRange).

Lemma Node_tree_ind (P : Node → Prop) :
  (∀ self children, Forall P children → P (MkNode self children)) → ∀ n, P n.
Proof.
  intros H. fix IH 1. intros [self children]. apply H.
  induction children as [|child rest IHrest]; constructor; [apply IH | apply IHrest].
Qed.

Lemma walk_node self children v :
  walk (MkNode self children) v
  = fold_left (λ v child, walk child v) children (ColX_Enter mapRange v self).1.
Proof.
  cbn [walk]. generalize (ColX_Enter mapRange v self).1.
  induction children as [|child rest IH]; intros v'; [done |].
  cbn [fold_left]. apply IH.
Qed.

Lemma actions_node self children :
  actions (MkNode self children) = option_list (actionOf self) ++ flat_map actions children.
Proof.
  reflexivity.
Qed.

Lemma columns_node self children :
  columns (MkNode self children)
  = match self with ColumnName name => [name] | _ => [] end ++ flat_map columns children.
Proof.
  reflexivity.
Qed.

(** [Enter] never asks to skip the children and [Leave] never stops the
    walk: [Accept] is the walk, and it ends well. *)
Lemma Accept_walk (n : Node) (v : ColX) :
  @Accept ColX (ColX_Visitor mapRange) n v = (walk n v, true).
Proof.
  revert v. induction n as [self children IH] using Node_tree_ind. intros v.
  rewrite walk_node. cbn [Accept Enter Leave ColX_Visitor].
  destruct (ColX_Enter mapRange v self) as [v1 skip] eqn:HEnter.
  assert (skip = false) as -> by (unfold ColX_Enter in HEnter; by injection HEnter).
  cbn [fst]. clear HEnter. revert v1.
  induction IH as [|child rest Hchild _ IHrest]; intros v1; [done |].
  cbn [fold_left]. rewrite Hchild. apply IHrest.
Qed.

Lemma visit_walk (rootNode : Node) : visit mapRange rootNode = walk rootNode newColX.
Proof. unfold visit. by rewrite Accept_walk. Qed.

(** *** What the parts of [Enter] leave alone *)

Lemma found_spec names tableNameStr : found names tableNameStr = true ↔ tableNameStr ∈ names.
Proof.
  induction names as [|name rest IH]; simpl; [split; [done | by intros ?%elem_of_nil] |].
  destruct (eq name tableNameStr) eqn:Heq.
  - apply eq_spec in Heq as ->. split; [intros _; left | done].
  - apply eq_false in Heq. rewrite IH. split; [by right | ].
    intros [-> | H]%elem_of_cons; done.
Qed.

Lemma Action_tableSourceCase v Source AsName_O :
  Action (tableSourceCase v Source AsName_O) = Action v.
Proof.
  unfold tableSourceCase. destruct Source; [| done].
  by destruct (negb (eq AsName_O [])), (negb (found _ _) && _).
Qed.

Lemma Action_extractTableNamesOf join v : Action (extractTableNamesOf join v) = Action v.
Proof.
  revert join v. fix IH 1. intros [Left Right] v. cbn [extractTableNamesOf].
  assert (∀ rs v0,
    Action match rs with
           | Some (TableSource Source AsName_O) => tableSourceCase v0 Source AsName_O
           | Some (JoinNode j) => extractTableNamesOf j v0
           | Some OtherResultSet => v0
           | None => v0
           end = Action v0) as Hside.
  { intros [[Source AsName_O|j|]|] v0; [apply Action_tableSourceCase | apply IH | done | done]. }
  clear IH. by rewrite !Hside.
Qed.

Lemma Action_extractTableNames v join : Action (extractTableNames v join) = Action v.
Proof. destruct join; [apply Action_extractTableNamesOf | done]. Qed.

Lemma Action_extractWhereFilter v whereExpr :
  Action (extractWhereFilter mapRange v whereExpr) = Action v.
Proof. unfold extractWhereFilter. destruct whereExpr as [e|]; [| done]. by destruct (Restore e). Qed.

Lemma Action_setPrimaryFromTables v : Action (setPrimaryFromTables v) = Action v.
Proof. unfold setPrimaryFromTables. by destruct (TableNames v). Qed.

Lemma Action_appendTable v table : Action (appendTable v table) = Action v.
Proof. unfold appendTable. destruct table; [| done]. by destruct (negb _). Qed.

Lemma Action_fold_appendTable Tables v : Action (fold_left appendTable Tables v) = Action v.
Proof.
  revert v. induction Tables as [|table rest IH]; intros v; simpl; [done |].
  by rewrite IH, Action_appendTable.
Qed.

(** [Enter] sets the action of a statement node and leaves it at the other
    nodes. *)
Lemma Action_Enter v self :
  Action (ColX_Enter mapRange v self).1 = default (Action v) (actionOf self).
Proof.
  unfold ColX_Enter. cbn [fst].
  destruct self as [name|Table|TableRefs Where|TableRefs Where|From Where|Table|Table|Tables|Table|];
    cbn [actionOf default].
  - done.
  - destruct Table as [[[refs|]]|]; [| done..]. by rewrite Action_extractTableNames.
  - destruct Where; [change (extractWhereFilterFromExpr mapRange) with (extractWhereFilter mapRange);
      rewrite Action_extractWhereFilter |];
      (destruct TableRefs; [by rewrite Action_setPrimaryFromTables, Action_extractTableNames | done]).
  - rewrite Action_extractWhereFilter.
    destruct TableRefs; [by rewrite Action_setPrimaryFromTables, Action_extractTableNames | done].
  - rewrite Action_extractWhereFilter.
    destruct From as [[[refs|]]|]; [| done..]. by rewrite Action_extractTableNames.
  - by rewrite Action_appendTable.
  - by rewrite Action_appendTable.
  - by rewrite Action_fold_appendTable.
  - by rewrite Action_appendTable.
  - done.
Qed.

(** The action after the walk is that of the last statement node
    visited. *)
Lemma Action_walk n v : Action (walk n v) = default (Action v) (last (actions n)).
Proof.
  revert v. induction n as [self children IH] using Node_tree_ind. intros v.
  rewrite walk_node, actions_node, last_app.
  assert (∀ v0, Action (fold_left (λ v child, walk child v) children v0)
                = default (Action v0) (last (flat_map actions children))) as Hchildren.
  { induction IH as [|child rest Hchild _ IHrest]; intros v0; [done |].
    cbn [fold_left flat_map]. rewrite IHrest, Hchild, last_app.
    by destruct (last (flat_map actions rest)). }
  rewrite Hchildren, Action_Enter.
  destruct (last (flat_map actions children)); [done |].
  by destruct (actionOf self).
Qed.

(** *** The column names do not bear on the other fields *)





Lemma setPrimaryFromTables_setColNames v x :
  setPrimaryFromTables (setColNames v x) = setColNames (setPrimaryFromTables v) x.
Proof. unfold setPrimaryFromTables. cbn [TableNames setColNames]. by destruct (TableNames v). Qed.


(** A tree without statement nodes only adds its column names. *)
Lemma walk_no_statement n v :
  actions n = [] → walk n v = setColNames v (ColNames v ++ columns n).
Proof.
  revert v. induction n as [self children IH] using Node_tree_ind. intros v.
  rewrite walk_node, actions_node, columns_node. intros [Hself Hchildren]%app_eq_nil.
  assert (∀ v0, fold_left (λ v child, walk child v) children v0
                = setColNames v0 (ColNames v0 ++ flat_map columns children)) as Hfold.
  { clear Hself. induction IH as [|child rest Hchild _ IHrest]; intros v0.
    - cbn. rewrite app_nil_r. by destruct v0.
    - cbn [flat_map] in Hchildren. apply app_eq_nil in Hchildren as [Hc Hr].
      cbn [fold_left flat_map]. rewrite IHrest, Hchild by done.
      cbn [ColNames setColNames]. by rewrite <- app_assoc. }
  rewrite Hfold.
  destruct self; try discriminate Hself; cbn; [by rewrite <- app_assoc | done].
Qed.

Lemma fold_walk_no_statement children v :
  flat_map actions children = [] →
  fold_left (λ v child, walk child v) children v
  = setColNames v (ColNames v ++ flat_map columns children).
Proof.
  revert v. induction children as [|child rest IH]; intros v Hnone.
  - cbn. rewrite app_nil_r. by destruct v.
  - cbn [flat_map] in Hnone. apply app_eq_nil in Hnone as [Hc Hr].
    cbn [fold_left flat_map]. rewrite IH, walk_no_statement by done.
    cbn [ColNames setColNames]. by rewrite <- app_assoc.
Qed.

(** *** The tables sequence *)

Lemma TableNames_extractWhereFilter v whereExpr :
  TableNames (extractWhereFilter mapRange v whereExpr) = TableNames v.
Proof. unfold extractWhereFilter. destruct whereExpr as [e|]; [| done]. by destruct (Restore e). Qed.

Lemma TableNames_setPrimaryFromTables v : TableNames (setPrimaryFromTables v) = TableNames v.
Proof. unfold setPrimaryFromTables. destruct (TableNames v) eqn:Hnames; cbn; done. Qed.

(** The join-tree walk adds a table name only when it is not there yet. *)
Lemma NoDup_tableSourceCase v Source AsName_O :
  NoDup (TableNames v) → NoDup (TableNames (tableSourceCase v Source AsName_O)).
Proof.
  intros Hv. unfold tableSourceCase. destruct Source as [tableName|]; [| done].
  set (v' := if negb (eq AsName_O []) then _ else v).
  assert (TableNames v' = TableNames v) as Hv' by (subst v'; by destruct (negb _)).
  destruct (found (TableNames v') (Name_O tableName)) eqn:Hfound; cbn [negb andb];
    [by rewrite Hv' |].
  destruct (negb (eq (Name_O tableName) [])); [| by rewrite Hv'].
  cbn [TableNames setTableNames]. apply NoDup_app. rewrite Hv'. split; [done |].
  split; [| apply NoDup_singleton].
  intros name Hin ->%list_elem_of_singleton.
  apply not_true_iff_false in Hfound. apply Hfound, found_spec. by rewrite Hv'.
Qed.

Lemma NoDup_extractTableNamesOf join v :
  NoDup (TableNames v) → NoDup (TableNames (extractTableNamesOf join v)).
Proof.
  revert join v. fix IH 1. intros [Left Right] v Hv. cbn [extractTableNamesOf].
  assert (∀ rs v0, NoDup (TableNames v0) →
    NoDup (TableNames match rs with
                      | Some (TableSource Source AsName_O) => tableSourceCase v0 Source AsName_O
                      | Some (JoinNode j) => extractTableNamesOf j v0
                      | Some OtherResultSet => v0
                      | None => v0
                      end)) as Hside.
  { intros [[Source AsName_O|j|]|] v0 Hv0;
      [by apply NoDup_tableSourceCase | by apply IH | done | done]. }
  clear IH. by apply Hside, Hside.
Qed.

Lemma NoDup_extractTableNames v join :
  NoDup (TableNames v) → NoDup (TableNames (extractTableNames v join)).
Proof. destruct join; [apply NoDup_extractTableNamesOf | done]. Qed.

(** INSERT, UPDATE, DELETE and SELECT nodes, which go through the
    join-tree walk, keep the tables sequence free of duplicates. *)
Lemma NoDup_Enter_dml v self :
  match self with
  | AlterTableStmt _ | CreateTableStmt _ | DropTableStmt _ | TruncateTableStmt _ => False
  | _ => True
  end →
  NoDup (TableNames v) → NoDup (TableNames (ColX_Enter mapRange v self).1).
Proof.
  intros Hself Hv. unfold ColX_Enter. cbn [fst].
  destruct self as [name|Table|TableRefs Where|TableRefs Where|From Where|Table|Table|Tables|Table|];
    try done.
  - destruct Table as [[[refs|]]|]; [| done..]. by apply NoDup_extractTableNames.
  - destruct Where; [change (extractWhereFilterFromExpr mapRange) with (extractWhereFilter mapRange);
      rewrite TableNames_extractWhereFilter |];
      (destruct TableRefs; [| done]);
      rewrite TableNames_setPrimaryFromTables; by apply NoDup_extractTableNames.
  - rewrite TableNames_extractWhereFilter. destruct TableRefs; [| done].
    rewrite TableNames_setPrimaryFromTables. by apply NoDup_extractTableNames.
  - rewrite TableNames_extractWhereFilter.
    destruct From as [[[refs|]]|]; [| done..]. by apply NoDup_extractTableNames.
Qed.

(** *** WHERE rendering that fails *)







(** *** The claims on the Extractor *)

(** C3: the claim asks for a tables sequence without duplicates for every
    statement, DROP with several listed tables included; the DROP case of
    [Enter] appends every listed name without looking for it in the
    sequence, so [DROP TABLE users, users] yields [users] twice.  (The
    join-tree walk does look: [NoDup_extractTableNames].) *)
Theorem Extract_drop_repeats_table :
  let '(_, tableNames, action, _, _) := Extract mapRange dropUsersTwice in
  action = str "DROP" ∧ tableNames = [str "users"; str "users"] ∧ ¬ NoDup tableNames.
Proof.
  cbn. split; [done |]. split; [done |].
  intros Hnodup. apply NoDup_cons in Hnodup as [Hnotin _]. apply Hnotin. by left.
Qed.



End extractor.

Section extractor_examples.
Import strings regexp ast cmd.


Example Extract_insertSelect :
  Extract map_to_list insertSelect
  = ([str "name"; str "active"; str "name"], [str "archive"; str "users"], str "SELECT",
     str "users.active=1", []).
Proof. vm_compute. reflexivity. Qed.


End extractor_examples.

(* ===================================================================== *)
(** ** WhereRenderer: the alias substitution *)
(* ===================================================================== *)

Section alias_substitution.
Import strings regexp cmd.

(** *** The scan *)

Lemma aliasFrom_skip alias repl k before s :
  k ≤ length s →
  aliasFrom alias repl k before s
  = aliasFrom alias repl 0 (byteBefore before (take k s)) (drop k s).
Proof.
  revert k before. induction s as [|c s IH]; intros [|k] before Hk; simpl in *; try done; try lia.
  rewrite IH by lia. by rewrite byteBefore_cons.
Qed.

Lemma aliasFrom_match alias repl before rest :
  aliasAt alias before (alias ++ str "." ++ rest) = true →
  aliasFrom alias repl 0 before (alias ++ str "." ++ rest)
  = expand repl (alias ++ str ".") ++ aliasFrom alias repl 0 (Some "."%char) rest.
Proof.
  unfold aliasAt. intros [Hb Hp]%andb_true_iff.
  destruct alias as [|c alias].
  - cbn -[expand HasPrefix wordBoundary] in *. by rewrite Hb, Hp.
  - cbn -[expand HasPrefix wordBoundary] in *. rewrite Hb, Hp. cbn [andb]. f_equal.
    rewrite aliasFrom_skip by (rewrite length_app; simpl; lia).
    replace (take (S (length alias)) (alias ++ "."%char :: rest)) with (alias ++ ["."%char]).
    2:{ change (alias ++ "."%char :: rest) with (alias ++ ["."%char] ++ rest).
        rewrite app_assoc, take_app_length'; [done |]. rewrite length_app. simpl. lia. }
    replace (drop (S (length alias)) (alias ++ "."%char :: rest)) with rest.
    2:{ change (alias ++ "."%char :: rest) with (alias ++ ["."%char] ++ rest).
        rewrite app_assoc, drop_app_length'; [done |]. rewrite length_app. simpl. lia. }
    f_equal. unfold byteBefore. by rewrite last_snoc.
Qed.

Lemma aliasFrom_nomatch alias repl before c s :
  aliasAt alias before (c :: s) = false →
  aliasFrom alias repl 0 before (c :: s) = c :: aliasFrom alias repl 0 (Some c) s.
Proof. unfold aliasAt. cbn [head aliasFrom]. by intros ->. Qed.

(** Induction along the scan of [ReplaceAlias]. *)
Lemma alias_scan_ind (alias : gostring) (P : option ascii → gostring → Prop) :
  (∀ before, P before []) →
  (∀ before rest, aliasAt alias before (alias ++ str "." ++ rest) = true →
     P (Some "."%char) rest → P before (alias ++ str "." ++ rest)) →
  (∀ before c s, aliasAt alias before (c :: s) = false → P (Some c) s → P before (c :: s)) →
  ∀ before s, P before s.
Proof.
  intros Hnil Hmatch Hstep before s. revert before.
  induction s as [s IH] using (induction_ltof1 _ (@length ascii)). unfold ltof in IH.
  intros before. destruct s as [|c s]; [done |].
  destruct (aliasAt alias before (c :: s)) eqn:Hat.
  - pose proof Hat as [_ [k Hk]%HasPrefix_spec]%andb_true_iff.
    rewrite <- app_assoc in Hk. rewrite Hk in Hat |- *.
    apply Hmatch; [done |]. apply IH. rewrite Hk, !length_app. simpl. lia.
  - apply Hstep; [done |]. apply IH. simpl. lia.
Qed.

(** *** Identifiers *)

Lemma isIdentifier_word name : isIdentifier name = true → forallb isWordChar name = true.
Proof. by intros [_ ?]%andb_true_iff. Qed.

Lemma isIdentifier_cons name :
  isIdentifier name = true →
  ∃ c rest, name = c :: rest ∧ isWordChar c = true ∧ forallb isWordChar rest = true.
Proof.
  intros [Hne Hw]%andb_true_iff. destruct name as [|c rest]; [done |].
  apply andb_true_iff in Hw as [Hc Hrest]. by exists c, rest.
Qed.

(** A match starts with a word character that no word character
    precedes. *)
Lemma aliasAt_inv alias before c s :
  isIdentifier alias = true → aliasAt alias before (c :: s) = true →
  isWordChar c = true ∧ isWord before = false.
Proof.
  intros (a & rest & -> & Ha & _)%isIdentifier_cons [Hb Hp]%andb_true_iff.
  simpl in Hp. destruct (Ascii.eqb_spec a c) as [->|]; [| done].
  split; [done |]. unfold wordBoundary in Hb. cbn [head isWord] in Hb.
  rewrite Ha in Hb. by destruct (isWord before).
Qed.

Lemma aliasAt_after_word alias before s :
  isIdentifier alias = true → isWord before = true → aliasAt alias before s = false.
Proof.
  intros Halias Hbefore. apply not_true_iff_false. intros Hat.
  destruct s as [|c s].
  - apply andb_true_iff in Hat as [_ Hp]. by rewrite HasPrefix_nil_dot in Hp.
  - apply aliasAt_inv in Hat as [_ Hat]; [congruence | done].
Qed.

(** The text up to the first dot decides which identifier is matched. *)
Lemma HasPrefix_identifier_dot (t b y : gostring) :
  forallb isWordChar t = true → forallb isWordChar b = true →
  HasPrefix (t ++ str "." ++ y) (b ++ str ".") = true → b = t.
Proof.
  revert b. induction t as [|e t IH]; intros [|c b] Ht Hb Hp;
    cbn [HasPrefix forallb app str list_ascii_of_string] in *; try done.
  - destruct (Ascii.eqb c ".") eqn:Hc; [| discriminate Hp].
    apply Ascii.eqb_eq in Hc as ->. change (isWordChar ".") with false in Hb. discriminate Hb.
  - destruct (Ascii.eqb "." e) eqn:He; [| discriminate Hp].
    apply Ascii.eqb_eq in He as <-. change (isWordChar ".") with false in Ht. discriminate Ht.
  - apply andb_true_iff in Ht as [_ Ht]. apply andb_true_iff in Hb as [_ Hb].
    destruct (Ascii.eqb_spec c e) as [->|]; [| done]. f_equal. by apply IH.
Qed.

(** *** The template *)

Lemma expandFuel_plain fuel template whole :
  length template < fuel → "$"%char ∉ template →
  expandFuel fuel template whole = template.
Proof.
  revert template. induction fuel as [|fuel IH]; intros template Hlen Hno; [lia |].
  destruct template as [|c after]; [done |]. cbn [expandFuel].
  destruct (Ascii.eqb_spec c "$") as [->|_].
  - exfalso. apply Hno. by left.
  - f_equal. apply IH; [simpl in Hlen; lia |]. intros Hin. apply Hno. by right.
Qed.

Lemma expand_identifier tableName whole :
  forallb isWordChar tableName = true →
  expand (tableName ++ str ".") whole = tableName ++ str ".".
Proof.
  intros Hname. apply expandFuel_plain; [lia |].
  intros [Hin | Hin]%elem_of_app.
  - rewrite forallb_forall in Hname. apply list_elem_of_In, Hname in Hin. done.
  - by apply list_elem_of_singleton in Hin.
Qed.

(** *** Texts without a match *)

Lemma hasAliasPrefix_cons alias before c s :
  hasAliasPrefix alias before (c :: s)
  = aliasAt alias before (c :: s) || hasAliasPrefix alias (Some c) s.
Proof. done. Qed.

Lemma hasAliasPrefix_nil alias before : hasAliasPrefix alias before [] = false.
Proof.
  cbn [hasAliasPrefix]. unfold aliasAt. by rewrite HasPrefix_nil_dot, andb_false_r.
Qed.

(** Where the pattern does not match, the replacement leaves the text as
    it is. *)
Lemma ReplaceAlias_absent alias repl before s :
  hasAliasPrefix alias before s = false → aliasFrom alias repl 0 before s = s.
Proof.
  revert before. induction s as [|c s IH]; intros before; [done |].
  rewrite hasAliasPrefix_cons. intros [Hat Hrest]%orb_false_iff.
  rewrite aliasFrom_nomatch by done. by rewrite IH.
Qed.

Lemma hasAliasPrefix_drop alias before x y :
  hasAliasPrefix alias before (x ++ y) = false →
  hasAliasPrefix alias (byteBefore before x) y = false.
Proof.
  revert before. induction x as [|c x IH]; intros before; [done |].
  change ((c :: x) ++ y) with (c :: (x ++ y)). rewrite hasAliasPrefix_cons.
  intros [_ Hrest]%orb_false_iff. rewrite byteBefore_cons. by apply IH.
Qed.

(** What the output starts with, up to the first non-word byte, the input
    starts with, when a word character stands in front of it. *)
Lemma aliasFrom_word_head alias repl (w : gostring) (d : ascii) (s : gostring)
    (before : option ascii) :
  isIdentifier alias = true →
  forallb isWordChar w = true → isWordChar d = false → isWord before = true →
  HasPrefix (aliasFrom alias repl 0 before s) (w ++ [d]) = true →
  HasPrefix s (w ++ [d]) = true.
Proof.
  intros Halias Hw Hd. revert s before.
  induction w as [|e w IH]; intros s before Hbefore Hout.
  - destruct s as [|c s]; [done |].
    by rewrite aliasFrom_nomatch in Hout by by apply aliasAt_after_word.
  - apply andb_true_iff in Hw as [He Hw].
    destruct s as [|c s]; [done |].
    rewrite aliasFrom_nomatch in Hout by by apply aliasAt_after_word.
    cbn [HasPrefix app] in Hout |- *.
    destruct (Ascii.eqb e c) eqn:Hec; [| done]. apply Ascii.eqb_eq in Hec as ->.
    by apply (IH Hw s (Some c)).
Qed.

(** Inside and right after an identifier no match starts. *)
Lemma hasAliasPrefix_after_word alias (t y : gostring) (before : option ascii) :
  isIdentifier alias = true → forallb isWordChar t = true → isWord before = true →
  hasAliasPrefix alias before (t ++ str "." ++ y) = hasAliasPrefix alias (Some "."%char) y.
Proof.
  intros Halias. revert before. induction t as [|e t IH]; intros before Ht Hbefore.
  - change ([] ++ str "." ++ y) with ("."%char :: y).
    rewrite hasAliasPrefix_cons. by rewrite aliasAt_after_word.
  - apply andb_true_iff in Ht as [He Ht].
    change ((e :: t) ++ str "." ++ y) with (e :: (t ++ str "." ++ y)).
    rewrite hasAliasPrefix_cons, aliasAt_after_word by done. by apply IH.
Qed.

Lemma hasAliasPrefix_other_identifier alias (t y : gostring) (before : option ascii) :
  isIdentifier alias = true → forallb isWordChar t = true → alias ≠ t →
  hasAliasPrefix alias before (t ++ str "." ++ y) = hasAliasPrefix alias (Some "."%char) y.
Proof.
  intros Halias Ht Hne.
  assert (aliasAt alias before (t ++ str "." ++ y) = false) as Hat.
  { apply not_true_iff_false. intros [_ Hp]%andb_true_iff.
    apply HasPrefix_identifier_dot in Hp; [done | done | by apply isIdentifier_word]. }
  destruct t as [|e t].
  - change ([] ++ str "." ++ y) with ("."%char :: y) in *.
    by rewrite hasAliasPrefix_cons, Hat.
  - apply andb_true_iff in Ht as [He Ht].
    change ((e :: t) ++ str "." ++ y) with (e :: (t ++ str "." ++ y)) in *.
    rewrite hasAliasPrefix_cons, Hat. by apply hasAliasPrefix_after_word.
Qed.

(** Replacing [alias] by the table name [tableName] leaves no match of
    [alias], and brings no match of another identifier [other] that is not
    the table name. *)
Lemma ReplaceAlias_clears alias tableName other (before : option ascii) (s : gostring) :
  isIdentifier alias = true → isIdentifier other = true →
  forallb isWordChar tableName = true → other ≠ tableName →
  hasAliasPrefix other before s = false ∨ other = alias →
  hasAliasPrefix other before (aliasFrom alias (tableName ++ str ".") 0 before s) = false.
Proof.
  intros Halias Hother Htable Hne. revert before s.
  apply (alias_scan_ind alias
    (λ before s, hasAliasPrefix other before s = false ∨ other = alias →
       hasAliasPrefix other before (aliasFrom alias (tableName ++ str ".") 0 before s) = false)).
  - intros before _. apply hasAliasPrefix_nil.
  - intros before rest Hat IH Hs.
    rewrite aliasFrom_match, expand_identifier by done. rewrite <- app_assoc.
    rewrite hasAliasPrefix_other_identifier by done. apply IH.
    destruct Hs as [Hs | ->]; [left | by right].
    rewrite app_assoc in Hs. apply hasAliasPrefix_drop in Hs.
    unfold byteBefore in Hs. change (str ".") with ["."%char] in Hs.
    by rewrite last_snoc in Hs.
  - intros before c s Hat IH Hs. rewrite aliasFrom_nomatch by done.
    rewrite hasAliasPrefix_cons. apply orb_false_iff. split.
    + apply not_true_iff_false. intros Hout.
      assert (aliasAt other before (c :: s) = true) as Hin.
      { pose proof Hout as [Hc _]%aliasAt_inv; [| done].
        apply andb_true_iff in Hout as [Hb Hp]. apply andb_true_iff. split; [done |].
        destruct (isIdentifier_cons _ Hother) as (o & rest & -> & Ho & Hrest).
        cbn [HasPrefix app] in Hp |- *.
        destruct (Ascii.eqb o c) eqn:Hoc; [| done].
        apply (aliasFrom_word_head alias (tableName ++ str ".") rest "." s (Some c));
          done. }
      destruct Hs as [Hs | ->]; [| congruence].
      rewrite hasAliasPrefix_cons, Hin in Hs. done.
    + apply IH. destruct Hs as [Hs | ->]; [left | by right].
      rewrite hasAliasPrefix_cons in Hs. by apply orb_false_iff in Hs as [_ Hs].
Qed.

(** *** One pass over the entries *)

Lemma identifierEntries_spec entries alias tableName :
  identifierEntries entries = true → (alias, tableName) ∈ entries →
  isIdentifier alias = true ∧ isIdentifier tableName = true.
Proof.
  unfold identifierEntries. rewrite forallb_forall. intros H Hin%list_elem_of_In.
  apply H in Hin. by apply andb_true_iff in Hin.
Qed.

Lemma noTableIsAlias_spec entries alias tableName alias' tableName' :
  noTableIsAlias entries = true →
  (alias, tableName) ∈ entries → (alias', tableName') ∈ entries → alias' ≠ tableName.
Proof.
  unfold noTableIsAlias. rewrite forallb_forall.
  intros H Hin%list_elem_of_In Hin'%list_elem_of_In.
  apply H in Hin. rewrite forallb_forall in Hin. apply Hin in Hin'.
  apply negb_true_iff, eq_false in Hin'. congruence.
Qed.

(** After the pass no alias of the entries is left at a word boundary, and
    no identifier that was absent before and is no table name of the
    entries has come. *)
Lemma substituteAliases_clears (all entries : list (gostring * gostring))
    (cleared : list gostring) (filter : gostring) :
  identifierEntries all = true → noTableIsAlias all = true →
  entries ⊆ all →
  (∀ other, other ∈ cleared →
     isIdentifier other = true ∧ hasAliasPrefix other None filter = false
     ∧ ∀ alias tableName, (alias, tableName) ∈ all → other ≠ tableName) →
  ∀ other, other ∈ cleared ∨ other ∈ entries.*1 →
    hasAliasPrefix other None (substituteAliases entries filter) = false.
Proof.
  intros Hident Hnot. revert cleared filter.
  induction entries as [|[alias tableName] entries IH]; intros cleared filter Hsub Hcleared other.
  - intros [Hin | Hin]; [by apply Hcleared | by apply elem_of_nil in Hin].
  - assert ((alias, tableName) ∈ all) as Hentry by (apply Hsub; by left).
    destruct (identifierEntries_spec _ _ _ Hident Hentry) as [Halias Htable].
    intros Hother. cbn [substituteAliases fold_left].
    apply (IH (alias :: cleared)).
    + intros entry Hin. apply Hsub. by right.
    + intros b [-> | Hb]%elem_of_cons.
      * split; [done |]. split.
        -- apply ReplaceAlias_clears; try done; [by apply isIdentifier_word | | by right].
           by eapply noTableIsAlias_spec.
        -- intros a t Hin. by eapply noTableIsAlias_spec.
      * destruct (Hcleared b Hb) as (Hbi & Hbf & Hbt). split; [done |]. split; [| done].
        apply ReplaceAlias_clears; try done; [by apply isIdentifier_word | by eapply Hbt | by left].
    + destruct Hother as [Hin | Hin]; [left; by right |].
      cbn [fmap list_fmap fst] in Hin. apply elem_of_cons in Hin as [-> | Hin];
        [left; by left | by right].
Qed.

Lemma substituteAliases_absent (entries : list (gostring * gostring)) (filter : gostring) :
  (∀ alias, alias ∈ entries.*1 → hasAliasPrefix alias None filter = false) →
  substituteAliases entries filter = filter.
Proof.
  induction entries as [|[alias tableName] entries IH]; intros Habsent; [done |].
  cbn [substituteAliases fold_left]. unfold ReplaceAlias.
  rewrite ReplaceAlias_absent by (apply Habsent; by left).
  apply IH. intros a Ha. apply Habsent. by right.
Qed.

(** C5, as the claim states it, fails: the table [big-t] under the alias
    [t] (as in [FROM `big-t` t WHERE t.x = 1]) is rewritten once more by a
    second pass, because its own name ends with [t] at a word boundary. *)
Lemma substituteAliases_not_idempotent :
  substituteAliases [(str "t", str "big-t")]
    (substituteAliases [(str "t", str "big-t")] (str "t.x=1"))
  ≠ substituteAliases [(str "t", str "big-t")] (str "t.x=1").
Proof. vm_compute. discriminate. Qed.

(** Nor does one pass remove every alias prefix when a table name is the
    alias of another table and the loop meets that alias first. *)
Example substituteAliases_order :
  substituteAliases [(str "b", str "c"); (str "a", str "b")] (str "a.x=1") = str "b.x=1"
  ∧ substituteAliases [(str "a", str "b"); (str "b", str "c")] (str "a.x=1") = str "c.x=1".
Proof. split; vm_compute; reflexivity. Qed.

(** C5, amended: when the aliases and the table names of the alias map are
    identifiers (letters, digits, underscores) and no table name is itself
    an alias, then after one pass of the alias substitution, in whatever
    order the map is walked, no [<alias>.] is left at a word boundary, and
    a second pass, in whatever order, changes nothing. *)
Theorem substituteAliases_idempotent (entries entries' : list (gostring * gostring))
    (filter : gostring) :
  identifierEntries entries = true →
  noTableIsAlias entries = true →
  entries' ≡ₚ entries →
  (∀ alias, alias ∈ entries.*1 →
     hasAliasPrefix alias None (substituteAliases entries filter) = false)
  ∧ substituteAliases entries' (substituteAliases entries filter)
    = substituteAliases entries filter.
Proof.
  intros Hident Hnot Hperm.
  assert (∀ alias, alias ∈ entries.*1 →
            hasAliasPrefix alias None (substituteAliases entries filter) = false) as Hclear.
  { intros alias Hin. apply (substituteAliases_clears entries entries [] filter); try done.
    - intros other Hother. by apply elem_of_nil in Hother.
    - by right. }
  split; [done |]. apply substituteAliases_absent.
  intros alias Hin. apply Hclear. by rewrite <- Hperm.
Qed.

Lemma substituteAliases_idempotent_witness :
  substituteAliases [(str "p", str "posts"); (str "u", str "users")]
    (substituteAliases [(str "u", str "users"); (str "p", str "posts")]
       (str "u.id=p.user_id AND up.x=u.y"))
  = str "users.id=posts.user_id AND up.x=users.y".
Proof.
  rewrite (proj2 (substituteAliases_idempotent
                    [(str "u", str "users"); (str "p", str "posts")]
                    [(str "p", str "posts"); (str "u", str "users")]
                    (str "u.id=p.user_id AND up.x=u.y")
                    Logic.eq_refl Logic.eq_refl (perm_swap _ _ _))).
  vm_compute. reflexivity.
Defined.

End alias_substitution.

(* ===================================================================== *)
(** ** WhereRenderer: the charset prefix *)
(* ===================================================================== *)

Section charset_prefix.
Import strings regexp ast cmd.




Lemma charsetFrom_skip k s :
  k ≤ length s → charsetFrom k s = charsetFrom 0 (drop k s).
Proof.
  revert k. induction s as [|c s IH]; intros [|k] Hk; simpl in *; try done; try lia.
  apply IH. lia.
Qed.







(** A [_UTF8MB4] literal that holds a line feed keeps its prefix as well:
    [.] does not match a line feed. *)
Example ReplaceCharset_line_feed :
  ReplaceCharset (str "a=_UTF8MB4'x" ++ ["010"%char] ++ str "y'")
  = str "a=_UTF8MB4'x" ++ ["010"%char] ++ str "y'".
Proof. vm_compute. reflexivity. Qed.



End charset_prefix.

(* ===================================================================== *)
(** ** DumpPlanGenerator: the export directives *)
(* ===================================================================== *)

Section dump_plan.
Import strings regexp ast cmd.

Variable ToLower : gostring → gostring.
Variables connOpts database : gostring.
Local Abbreviation exportDirective := (exportDirective connOpts database).

Lemma quiet_ret {A} (a : A) : quiet (mret a).
Proof. done. Qed.

Lemma quiet_panic {A} : quiet (@panic A).
Proof. done. Qed.

Lemma quiet_bind {A B} (m : io A) (k : A → io B) :
  quiet m → (∀ a, quiet (k a)) → quiet (m ≫= k).
Proof.
  intros Hm Hk out. unfold mbind, io_bind. specialize (Hm out).
  destruct (m out) as [[a|] out'] eqn:Hrun; cbn [snd] in *; [| done].
  by rewrite Hk.
Qed.

Lemma quiet_Print text : isDirective text = false → quiet (Print text).
Proof.
  intros Htext out. unfold Print, directivesOf. cbn [snd].
  rewrite List.filter_app. cbn [List.filter]. by rewrite Htext, app_nil_r.
Qed.

Lemma quiet_forRange {A} (xs : list A) (body : A → io unit) :
  (∀ x, quiet (body x)) → quiet (forRange xs body).
Proof.
  intros Hbody. induction xs as [|x xs IH]; [apply quiet_ret |].
  cbn [forRange]. apply quiet_bind; [apply Hbody | done].
Qed.

Lemma quiet_index0 s : quiet (index0 s).
Proof. destruct s; [apply quiet_panic | apply quiet_ret]. Qed.

Lemma quiet_slice02 s : quiet (slice02 s).
Proof. destruct s as [|? [|? ?]]; try apply quiet_panic. apply quiet_ret. Qed.

Lemma quiet_printJoin tableName tbl : quiet (printJoin ToLower tableName tbl).
Proof.
  unfold printJoin. destruct (negb (eq tbl tableName)); [| apply quiet_ret].
  apply quiet_bind; [apply quiet_index0 | intros first].
  apply quiet_bind; [apply quiet_index0 | intros firstOfTable].
  apply quiet_bind.
  - destruct (eq _ _); [apply quiet_slice02 | apply quiet_ret].
  - intros alias. by apply quiet_Print.
Qed.

(** The explanatory block prints comments only. *)
Lemma quiet_printHelper tableNames whereFilter tableName :
  quiet (printHelper ToLower connOpts database tableNames whereFilter tableName).
Proof.
  unfold printHelper, Println.
  repeat (apply quiet_bind; [| intros _]);
    try (by apply quiet_Print).
  apply quiet_forRange. intros tbl. apply quiet_printJoin.
Qed.

Lemma printDump_directive tableNames whereFilter tableName out :
  printDump connOpts database (FilterWhereForTable whereFilter tableName tableNames)
            tableName out
  = (Done tt, out ++ [exportDirective tableNames whereFilter tableName]).
Proof.
  unfold printDump, exportDirective.
  destruct (eq (FilterWhereForTable whereFilter tableName tableNames) []); cbn [negb].
  - done.
  - unfold Print. do 3 f_equal. by rewrite <- !app_assoc.
Qed.

Lemma isDirective_exportDirective tableNames whereFilter tableName :
  isDirective (exportDirective tableNames whereFilter tableName) = true.
Proof. apply HasPrefix_app. Qed.

(** One round of the loop prints the table's directive, unless the
    explanatory block panics before. *)
Lemma dumpTable_directive tableNames action whereFilter primaryTable tableName out :
  let run := dumpTable ToLower connOpts database tableNames action whereFilter primaryTable
                       tableName out in
  directivesOf run.2
  = directivesOf out
    ++ match run.1 with
       | Done _ => [exportDirective tableNames whereFilter tableName]
       | Panicked => []
       end.
Proof.
  cbn zeta. unfold dumpTable.
  set (helper := if _ && _ && _ then _ else _).
  assert (quiet helper) as Hquiet.
  { unfold helper. destruct (_ && _ && _); [| apply quiet_ret].
    destruct (_ && _); [apply quiet_printHelper | apply quiet_ret]. }
  unfold mbind, io_bind. specialize (Hquiet out).
  destruct (helper out) as [[[]|] out'] eqn:Hrun; cbn [fst snd] in *.
  - rewrite printDump_directive. cbn [fst snd]. unfold directivesOf in *.
    rewrite List.filter_app, Hquiet. cbn [List.filter].
    by rewrite isDirective_exportDirective.
  - by rewrite app_nil_r.
Qed.

(** The loop over the tables prints the directives of the tables it gets
    through, in their order: all of them when it does not panic. *)
Lemma forRange_dumpTable tableNames action whereFilter primaryTable tables out :
  let run := forRange tables (dumpTable ToLower connOpts database tableNames action
                                        whereFilter primaryTable) out in
  ∃ n, directivesOf run.2
       = directivesOf out ++ map (exportDirective tableNames whereFilter) (take n tables)
       ∧ match run.1 with
         | Done _ => n = length tables
         | Panicked => n < length tables
         end.
Proof.
  cbn zeta. revert out. induction tables as [|tableName tables IH]; intros out.
  - exists 0. by rewrite app_nil_r.
  - cbn [forRange]. unfold mbind, io_bind.
    pose proof (dumpTable_directive tableNames action whereFilter primaryTable tableName out)
      as Hone. cbn zeta in Hone.
    destruct (dumpTable _ _ _ _ _ _ _ _ out) as [[[]|] out'] eqn:Hrun; cbn [fst snd] in *.
    + destruct (IH out') as (n & Hn & Hlen). exists (S n). split.
      * rewrite Hn, Hone. cbn [take map]. by rewrite <- app_assoc.
      * destruct (forRange _ _ out').1; cbn [length]; lia.
    + exists 0. split; [by rewrite Hone | cbn [length]; lia].
Qed.

(** When the generator does not panic on a statement with tables, what
    it prints holds one directive per table to export, in their order,
    each with its [--where] clause when its filter is not empty. *)
Lemma dumpFacts_directives tableNames action whereFilter primaryTable out out' :
  tableNames ≠ [] →
  dumpFacts ToLower connOpts database tableNames action whereFilter primaryTable out
  = (Done tt, out') →
  directivesOf out'
  = directivesOf out
    ++ map (exportDirective tableNames whereFilter)
           (tablesToDump tableNames action primaryTable).
Proof.
  intros Hnames Hrun. unfold dumpFacts in Hrun.
  destruct tableNames as [|t0 rest]; [done |]. cbn [length Nat.eqb] in Hrun.
  destruct (forRange_dumpTable (t0 :: rest) action whereFilter primaryTable
              (tablesToDump (t0 :: rest) action primaryTable) out) as (n & Hn & Hlen).
  cbn zeta in Hn, Hlen. rewrite Hrun in Hn, Hlen. cbn [fst snd] in Hn, Hlen.
  subst n. by rewrite firstn_all in Hn.
Qed.

End dump_plan.

Section dump_plan_claim.
Import strings regexp ast cmd.

(** C8 fails on [UPDATE ab JOIN a ON ab.id = a.id SET ab.v = 1
    WHERE ab.x = 1 AND a.y = 2]: the statement has the tables [ab] and
    [a] and the table to export [ab], whose filter [x=1] is not empty; the
    generator prints the start of the explanatory block and panics at
    [strings.ToLower(tbl)[0:2]] for the one-byte table name [a], so it
    prints no export directive. *)
Theorem dumpStatement_short_table_panics (connOpts database : gostring) :
  let '(_, tableNames, action, whereFilter, primaryTable) :=
    Extract map_to_list updateShortNames in
  tableNames = [str "ab"; str "a"]
  ∧ tablesToDump tableNames action primaryTable = [str "ab"]
  ∧ FilterWhereForTable whereFilter (str "ab") tableNames = str "x=1"
  ∧ (dumpStatement asciiToLower map_to_list connOpts database updateShortNames []).1
    = Panicked
  ∧ directivesOf
      (dumpStatement asciiToLower map_to_list connOpts database updateShortNames []).2
    = [].
Proof. vm_compute. done. Qed.

(** With the table names [Employees] and [Departments] the same
    statement shape gets through and prints its directive. *)
Example dumpFacts_employees :
  directivesOf
    (dumpFacts asciiToLower [] (str "database_name") [str "Employees"; str "Departments"]
       (str "UPDATE")
       (str "Departments.DepartmentName='Sales' and Employees.YearsOfService>=5")
       (str "Employees") []).2
  = [str "mysqldump --where=" ++ dquote ++ str "YearsOfService>=5" ++ dquote
     ++ str " database_name Employees" ++ nl].
Proof. vm_compute. reflexivity. Qed.

End dump_plan_claim.

(* ===================================================================== *)
(** ** The Extractor: the join tree and the facts of a walk *)
(* ===================================================================== *)

Section extractor_facts.
Import strings regexp ast cmd.

Variable mapRange : gmap gostring gostring → list (gostring * gostring).
Local Abbreviation walk := (walk mapRange).
Local Abbreviation enterAll := (enterAll mapRange).

(** *** Names seen for the first time *)

Lemma firstSeen_ext seen seen' names :
  (∀ x, x ∈ seen ↔ x ∈ seen') → firstSeen seen names = firstSeen seen' names.
Proof.
  revert seen seen'. induction names as [|name rest IH]; intros seen seen' Hsame; [done |].
  cbn [firstSeen]. rewrite (bool_decide_ext _ _ (Hsame name)).
  destruct (_ || _); [by apply IH |]. f_equal. apply IH.
  intros x. rewrite !elem_of_app. by rewrite Hsame.
Qed.

Lemma firstSeen_app seen a b :
  firstSeen seen (a ++ b) = firstSeen seen a ++ firstSeen (seen ++ firstSeen seen a) b.
Proof.
  revert seen. induction a as [|name rest IH]; intros seen.
  - cbn. by rewrite app_nil_r.
  - cbn [app firstSeen]. destruct (_ || _); [apply IH |].
    rewrite IH. cbn [app]. f_equal. f_equal. by rewrite <- app_assoc.
Qed.

Lemma elem_of_firstSeen seen names x :
  (x ∈ firstSeen seen names) ↔ (x ∈ names) ∧ (x ∉ seen) ∧ (x ≠ []).
Proof.
  revert seen. induction names as [|name rest IH]; intros seen; cbn [firstSeen].
  - rewrite elem_of_nil. tauto.
  - destruct (bool_decide (name ∈ seen)) eqn:Hseen; cbn [orb].
    + apply bool_decide_eq_true in Hseen. rewrite IH, elem_of_cons.
      split; [tauto |]. intros ([-> | Hx] & Hnot & Hne); [done | tauto].
    + apply bool_decide_eq_false in Hseen.
      destruct (eq name []) eqn:Hname.
      * apply eq_spec in Hname. rewrite IH, elem_of_cons.
        split; [tauto |]. intros ([-> | Hx] & Hnot & Hne); [done | tauto].
      * apply eq_false in Hname.
        rewrite !elem_of_cons, IH, elem_of_app, list_elem_of_singleton.
        destruct (decide (x = name)) as [-> | Hx]; [tauto |].
        split; [intros [? | (? & ? & ?)]; [done | tauto] |].
        intros ([? | ?] & ? & ?); [done | right; tauto].
Qed.

Lemma NoDup_firstSeen seen names : NoDup seen → NoDup (seen ++ firstSeen seen names).
Proof.
  revert seen. induction names as [|name rest IH]; intros seen Hseen; cbn [firstSeen].
  - by rewrite app_nil_r.
  - destruct (bool_decide (name ∈ seen)) eqn:Hin; cbn [orb]; [by apply IH |].
    apply bool_decide_eq_false in Hin.
    destruct (eq name []); [by apply IH |].
    rewrite (cons_middle name), app_assoc. apply IH.
    apply NoDup_app. split; [done |]. split; [| apply NoDup_singleton].
    intros x Hx ->%list_elem_of_singleton. done.
Qed.

(** *** The join tree *)

Lemma joined_nil v : joined v [] = v.
Proof. destruct v. unfold joined. cbn. by rewrite app_nil_r. Qed.

Lemma joined_app v a b : joined (joined v a) b = joined v (a ++ b).
Proof.
  unfold joined. cbn [ColNames TableNames PrimaryTable Action WhereFilter AliasMap].
  rewrite fmap_app, firstSeen_app, <- app_assoc. unfold registerAliases.
  by rewrite fold_left_app.
Qed.

Lemma tableSourceCase_joined v tableName AsName_O :
  tableSourceCase v (SourceTableName tableName) AsName_O
  = joined v [(Name_O tableName, AsName_O)].
Proof.
  unfold tableSourceCase, joined, registerAliases.
  cbn [fmap list_fmap fst snd fold_left firstSeen].
  assert (found (TableNames v) (Name_O tableName)
          = bool_decide (Name_O tableName ∈ TableNames v)) as Hfound.
  { destruct (found _ _) eqn:Hf; symmetry.
    - by apply bool_decide_eq_true, found_spec.
    - apply bool_decide_eq_false. intros Hin%found_spec. congruence. }
  destruct (eq AsName_O []); cbn [negb TableNames setAliasMap]; rewrite Hfound;
    destruct (bool_decide _); cbn [negb andb orb];
    destruct (eq (Name_O tableName) []); cbn [negb];
    destruct v; cbn; by rewrite ?app_nil_r.
Qed.

Lemma extractTableNamesOf_joined join v :
  extractTableNamesOf join v = joined v (leaves join).
Proof.
  revert join v. fix IH 1. intros [Left Right] v. cbn [extractTableNamesOf leaves].
  assert (∀ rs v0,
    match rs with
    | Some (TableSource Source AsName_O) => tableSourceCase v0 Source AsName_O
    | Some (JoinNode j) => extractTableNamesOf j v0
    | Some OtherResultSet => v0
    | None => v0
    end
    = joined v0 match rs with
                | Some (TableSource (SourceTableName tableName) AsName_O) =>
                  [(Name_O tableName, AsName_O)]
                | Some (JoinNode j) => leaves j
                | _ => []
                end) as Hside.
  { intros [[[tableName|] AsName_O|j|]|] v0; rewrite ?joined_nil;
      [apply tableSourceCase_joined | done | apply IH | done | done]. }
  clear IH. by rewrite !Hside, joined_app.
Qed.

Lemma extractTableNames_joined v join :
  extractTableNames v join = joined v (leavesOf join).
Proof.
  destruct join as [join|]; cbn [extractTableNames leavesOf];
    [apply extractTableNamesOf_joined | by rewrite joined_nil].
Qed.

Lemma registerAliases_lookup sources aliases alias :
  registerAliases sources aliases !! alias
  = if eq alias [] then aliases !! alias
    else default (aliases !! alias) (Some <$> lastWithAlias alias sources).
Proof.
  unfold registerAliases, lastWithAlias.
  induction sources as [|[name a] rest IH] using rev_ind.
  - cbn. by destruct (eq alias []).
  - rewrite fold_left_app, filter_app. cbn [fold_left fst snd].
    rewrite filter_cons, filter_nil. cbn [snd].
    destruct (eq a []) eqn:Ha.
    + apply eq_spec in Ha as ->. rewrite IH.
      destruct (eq alias []) eqn:Halias; [done |]. apply eq_false in Halias.
      rewrite decide_False by done. by rewrite app_nil_r.
    + apply eq_false in Ha. destruct (decide (a = alias)) as [-> | Hne].
      * rewrite lookup_insert_eq. rewrite last_snoc. cbn.
        destruct (eq alias []) eqn:Halias; [by apply eq_spec in Halias | done].
      * rewrite lookup_insert_ne by done. by rewrite IH, app_nil_r.
Qed.


(** *** One node *)

Lemma extractWhereFilterFromExpr_same v whereExpr :
  extractWhereFilterFromExpr mapRange v whereExpr = extractWhereFilter mapRange v whereExpr.
Proof. reflexivity. Qed.

Lemma listedNames_cons table Tables :
  listedNames (table :: Tables) = listedNames [table] ++ listedNames Tables.
Proof. unfold listedNames. cbn. by destruct table as [[name]|]; cbn; [destruct (eq name []) |]. Qed.

Lemma appendTable_fields v table :
  appendTable v table = setTableNames v (TableNames v ++ listedNames [table]).
Proof.
  unfold appendTable, listedNames. destruct table as [[name]|]; cbn.
  - destruct (eq name []); cbn; [| done]. rewrite app_nil_r. by destruct v.
  - rewrite app_nil_r. by destruct v.
Qed.

Lemma fold_appendTable_fields Tables v :
  fold_left appendTable Tables v = setTableNames v (TableNames v ++ listedNames Tables).
Proof.
  revert v. induction Tables as [|table Tables IH]; intros v.
  - cbn. rewrite app_nil_r. by destruct v.
  - cbn [fold_left]. rewrite IH, appendTable_fields, (listedNames_cons table Tables).
    cbn [TableNames setTableNames]. rewrite <- app_assoc. by destruct v.
Qed.

Lemma setPrimaryFromTables_fields v :
  setPrimaryFromTables v = setPrimaryTable v (default (PrimaryTable v) (head (TableNames v))).
Proof.
  unfold setPrimaryFromTables. destruct v as [? names ? ? ? ?]. cbn. by destruct names.
Qed.

(** The fields of the visitor after [Enter] at a node, but for the WHERE
    filter. *)
Lemma Enter_fields v self :
  let v' := (ColX_Enter mapRange v self).1 in
  ColNames v' = ColNames v ++ columnAt self
  ∧ TableNames v' = TableNames v ++ tablesAt (TableNames v) self
  ∧ PrimaryTable v'
    = match self with
      | UpdateStmt (Some _) _ | DeleteStmt (Some _) _ =>
        default (PrimaryTable v) (head (TableNames v'))
      | _ => PrimaryTable v
      end
  ∧ AliasMap v' = registerAliases (leavesOf (joinOf self)) (AliasMap v).
Proof.
  cbn zeta. unfold ColX_Enter. cbn [fst].
  destruct self as [name|Table|TableRefs Where|TableRefs Where|From Where|Table|Table|Tables
                    |Table|];
    cbn [columnAt tablesAt joinOf leavesOf];
    rewrite ?extractWhereFilterFromExpr_same.
  - cbn. by rewrite ?app_nil_r.
  - destruct Table as [[[refs|]]|]; rewrite ?extractTableNames_joined;
      cbn; by rewrite ?app_nil_r.
  - assert (∀ v0, (match Where with
                   | Some _ => extractWhereFilter mapRange v0 Where
                   | None => v0
                   end) = extractWhereFilter mapRange v0 Where) as -> by by destruct Where.
    destruct TableRefs as [[refs]|];
      rewrite ?extractTableNames_joined, ?setPrimaryFromTables_fields;
      unfold extractWhereFilter; destruct Where as [[[buf|err]]|];
      cbn; by rewrite ?app_nil_r.
  - destruct TableRefs as [[refs]|];
      rewrite ?extractTableNames_joined, ?setPrimaryFromTables_fields;
      unfold extractWhereFilter; destruct Where as [[[buf|err]]|];
      cbn; by rewrite ?app_nil_r.
  - destruct From as [[[refs|]]|]; rewrite ?extractTableNames_joined;
      unfold extractWhereFilter; destruct Where as [[[buf|err]]|];
      cbn; by rewrite ?app_nil_r.
  - rewrite appendTable_fields. cbn. by rewrite ?app_nil_r.
  - rewrite appendTable_fields. cbn. by rewrite ?app_nil_r.
  - rewrite fold_appendTable_fields. cbn. by rewrite ?app_nil_r.
  - rewrite appendTable_fields. cbn. by rewrite ?app_nil_r.
  - cbn. by rewrite ?app_nil_r.
Qed.


(** *** The walk as a fold *)

Lemma nodes_node self children :
  nodes (MkNode self children) = self :: flat_map nodes children.
Proof. reflexivity. Qed.

Lemma enterAll_app a b v : enterAll (a ++ b) v = enterAll b (enterAll a v).
Proof. apply fold_left_app. Qed.

Lemma walk_enterAll n v : walk n v = enterAll (nodes n) v.
Proof.
  revert v. induction n as [self children IH] using Node_tree_ind. intros v.
  rewrite walk_node, nodes_node. cbn [enterAll fold_left].
  generalize (ColX_Enter mapRange v self).1. clear v.
  induction IH as [|child rest Hchild _ IHrest]; intros v; [done |].
  cbn [fold_left flat_map]. rewrite Hchild, IHrest.
  symmetry. apply enterAll_app.
Qed.

Lemma columns_nodes n : columns n = flat_map columnAt (nodes n).
Proof.
  induction n as [self children IH] using Node_tree_ind.
  rewrite columns_node, nodes_node. cbn [flat_map columnAt]. f_equal.
  induction IH as [|child rest Hchild _ IHrest]; [done |].
  cbn [flat_map]. by rewrite flat_map_app, Hchild, IHrest.
Qed.

(** A property of the visitor that holds at the start and that every
    [Enter] keeps holds after the walk. *)
Lemma enterAll_invariant (I : ColX → Prop) kinds v :
  I v → (∀ v self, self ∈ kinds → I v → I (ColX_Enter mapRange v self).1) →
  I (enterAll kinds v).
Proof.
  revert v. induction kinds as [|self rest IH]; intros v Hv Hstep; [done |].
  cbn [enterAll fold_left]. apply IH.
  - apply Hstep; [apply list_elem_of_here | done].
  - intros v0 k Hk. apply Hstep. by apply list_elem_of_further.
Qed.

Lemma listedNames_nonempty Tables : [] ∉ listedNames Tables.
Proof.
  unfold listedNames. intros ([[name]|] & _ & Hname)%list_elem_of_omap; [| done].
  cbn in Hname. destruct (eq name []) eqn:Hempty; [done |].
  apply eq_false in Hempty. congruence.
Qed.

Lemma tablesAt_nonempty seen self : [] ∉ tablesAt seen self.
Proof.
  destruct self; cbn [tablesAt]; try apply listedNames_nonempty;
    try (intros (_ & _ & Hne)%elem_of_firstSeen; done).
  all: apply not_elem_of_nil.
Qed.

Lemma NoDup_listedNames_one table : NoDup (listedNames [table]).
Proof.
  unfold listedNames. destruct table as [[name]|]; cbn; [| apply NoDup_nil_2].
  destruct (eq name []); [apply NoDup_nil_2 | apply NoDup_singleton].
Qed.

Lemma NoDup_tablesAt seen self :
  isDDL self = false → NoDup seen → NoDup (seen ++ tablesAt seen self).
Proof.
  intros Hself Hseen.
  destruct self; try discriminate Hself; cbn [tablesAt];
    try apply NoDup_firstSeen; try done.
  all: by rewrite app_nil_r.
Qed.

Lemma ColNames_enterAll kinds v :
  ColNames (enterAll kinds v) = ColNames v ++ flat_map columnAt kinds.
Proof.
  revert v. induction kinds as [|self rest IH]; intros v.
  - cbn. by rewrite app_nil_r.
  - cbn [enterAll fold_left flat_map]. fold (enterAll rest (ColX_Enter mapRange v self).1).
    rewrite IH. destruct (Enter_fields v self) as (-> & _). by rewrite <- app_assoc.
Qed.

(** *** The facts of a statement *)

(** X1: however the joins of a join tree are nested, [extractTableNames]
    treats the tree as the list of its table-name sources, left before
    right: the tables sequence grows by the source names that are not
    empty and not yet in it, each at its first occurrence, and no field
    but the tables sequence and the alias map changes. *)
Theorem extractTableNames_flattens (v : ColX) (join : option Join) :
  let v' := extractTableNames v join in
  TableNames v' = TableNames v ++ firstSeen (TableNames v) (leavesOf join).*1
  ∧ ColNames v' = ColNames v
  ∧ PrimaryTable v' = PrimaryTable v
  ∧ Action v' = Action v
  ∧ WhereFilter v' = WhereFilter v.
Proof. cbn zeta. by rewrite extractTableNames_joined. Qed.

(** X2: after [extractTableNames] a non-empty alias maps to the table
    name of the last source of the join tree that carries it, whether or
    not that table name was new or empty; an alias that no source carries
    keeps its entry, and the empty alias gets none. *)
Theorem extractTableNames_registers_aliases (v : ColX) (join : option Join)
    (alias : gostring) :
  AliasMap (extractTableNames v join) !! alias
  = match lastWithAlias alias (leavesOf join) with
    | Some tableName => if eq alias [] then AliasMap v !! alias else Some tableName
    | None => AliasMap v !! alias
    end.
Proof.
  rewrite extractTableNames_joined. cbn [AliasMap joined].
  rewrite registerAliases_lookup.
  destruct (lastWithAlias alias (leavesOf join)); cbn; [done | by destruct (eq alias [])].
Qed.

(** X3: the walk reaches every node of the tree: what [Extract] returns
    is what [Enter] leaves when it is run at the nodes in pre-order, one
    after the other, from the fresh visitor; [Enter] never asks to skip
    children and the walk ends with [ok]. *)
Theorem Extract_folds_Enter (rootNode : Node) :
  Extract mapRange rootNode
  = (let v := enterAll (nodes rootNode) newColX in
     (ColNames v, TableNames v, Action v, WhereFilter v, PrimaryTable v))
  ∧ (∀ v self, (ColX_Enter mapRange v self).2 = false)
  ∧ (@Accept ColX (ColX_Visitor mapRange) rootNode newColX).2 = true.
Proof.
  split; [| split].
  - unfold Extract. by rewrite visit_walk, walk_enterAll.
  - done.
  - by rewrite Accept_walk.
Qed.

(** X4: the columns [Extract] returns are the names of the column-name
    nodes of the tree in pre-order, duplicates kept, whatever statements
    the tree holds. *)
Theorem Extract_columns (rootNode : Node) :
  let '(colNames, _, _, _, _) := Extract mapRange rootNode in
  colNames = columns rootNode.
Proof.
  unfold Extract. rewrite visit_walk, walk_enterAll, columns_nodes.
  by rewrite ColNames_enterAll.
Qed.

(** X5: the action [Extract] returns is that of the last statement node
    of the tree in pre-order, the empty string when the tree holds no
    statement node: a nested statement overrides the statement it is
    in. *)
Theorem Extract_action (rootNode : Node) :
  let '(_, _, action, _, _) := Extract mapRange rootNode in
  action = default [] (last (actions rootNode)).
Proof. unfold Extract. by rewrite visit_walk, Action_walk. Qed.

(** X6: the tables sequence [Extract] returns never holds the empty
    name. *)
Theorem Extract_no_empty_table (rootNode : Node) :
  let '(_, tableNames, _, _, _) := Extract mapRange rootNode in
  [] ∉ tableNames.
Proof.
  unfold Extract. rewrite visit_walk, walk_enterAll.
  apply (enterAll_invariant (λ v, [] ∉ TableNames v)); [apply not_elem_of_nil |].
  intros v self _ Hv. destruct (Enter_fields v self) as (_ & -> & _).
  rewrite elem_of_app. intros [Hin | Hin]; [done | by apply tablesAt_nonempty in Hin].
Qed.

(** X7: for a statement that is not a DROP and whose tree holds no ALTER,
    CREATE, DROP or TRUNCATE node below the root, the tables sequence has
    no duplicates. *)
Theorem Extract_tables_NoDup (self : NodeKind) (children : list Node) :
  (∀ Tables, self ≠ DropTableStmt Tables) →
  forallb (λ kind, negb (isDDL kind)) (flat_map nodes children) = true →
  let '(_, tableNames, _, _, _) := Extract mapRange (MkNode self children) in
  NoDup tableNames.
Proof.
  intros Hself Hchildren. unfold Extract.
  rewrite visit_walk, walk_enterAll, nodes_node. cbn [enterAll fold_left].
  apply (enterAll_invariant (λ v, NoDup (TableNames v))).
  - destruct (Enter_fields newColX self) as (_ & -> & _). cbn [TableNames newColX app].
    destruct self; cbn [tablesAt];
      try apply NoDup_listedNames_one; try apply (NoDup_firstSeen []);
      try apply NoDup_nil_2.
    by destruct (Hself Tables).
  - intros v kind Hkind Hv. destruct (Enter_fields v kind) as (_ & -> & _).
    apply NoDup_tablesAt; [| done].
    rewrite forallb_forall in Hchildren. apply negb_true_iff, Hchildren.
    by apply list_elem_of_In.
Qed.


(** X8: for an ALTER, CREATE, DROP or TRUNCATE statement with no
    statement node below it, [Extract] returns the column names of the
    tree, the listed table names that are neither [nil] nor empty in the
    order of the statement (one name at most but for DROP), the action of
    the statement, and an empty WHERE filter and primary table. *)
Theorem Extract_ddl (self : NodeKind) (children : list Node) :
  isDDL self = true →
  flat_map actions children = [] →
  Extract mapRange (MkNode self children)
  = (flat_map columns children, tablesAt [] self, default [] (actionOf self), [], []).
Proof.
  intros Hself Hchildren. unfold Extract.
  rewrite visit_walk, walk_node, fold_walk_no_statement by done.
  cbn [ColNames TableNames Action WhereFilter PrimaryTable setColNames].
  destruct self; try discriminate Hself; unfold ColX_Enter; cbn [fst tablesAt actionOf];
    rewrite ?appendTable_fields, ?fold_appendTable_fields; reflexivity.
Qed.

(** X9: the primary table [Extract] returns is empty or the first table
    of the tables sequence it returns. *)
Theorem Extract_primary_is_first_table (rootNode : Node) :
  let '(_, tableNames, _, _, primaryTable) := Extract mapRange rootNode in
  primaryTable = [] ∨ head tableNames = Some primaryTable.
Proof.
  unfold Extract. rewrite visit_walk, walk_enterAll.
  apply (enterAll_invariant
           (λ v, PrimaryTable v = [] ∨ head (TableNames v) = Some (PrimaryTable v)));
    [by left |].
  intros v self _ Hv. destruct (Enter_fields v self) as (_ & Hnames & Hprimary & _).
  assert (PrimaryTable v = [] ∨
          head (TableNames (ColX_Enter mapRange v self).1) = Some (PrimaryTable v)) as Hkept.
  { destruct Hv as [Hv | Hv]; [by left | right]. rewrite Hnames.
    destruct (TableNames v); [done | done]. }
  assert (default (PrimaryTable v) (head (TableNames (ColX_Enter mapRange v self).1)) = []
          ∨ head (TableNames (ColX_Enter mapRange v self).1)
            = Some (default (PrimaryTable v)
                            (head (TableNames (ColX_Enter mapRange v self).1)))) as Hset.
  { destruct (head (TableNames (ColX_Enter mapRange v self).1)) eqn:Hhead; cbn; [by right |].
    destruct Hkept as [Hkept | Hkept]; [by left | done]. }
  rewrite Hprimary.
  destruct self as [| |[?|] ?|[?|] ?| | | | | |]; done.
Qed.

(** X10: when the tree holds no UPDATE and no DELETE node, the primary
    table is empty. *)
Theorem Extract_primary_unset (rootNode : Node) :
  forallb (λ kind, negb (isUpdateOrDeleteStmt kind)) (nodes rootNode) = true →
  let '(_, _, _, _, primaryTable) := Extract mapRange rootNode in
  primaryTable = [].
Proof.
  intros Hnone. unfold Extract. rewrite visit_walk, walk_enterAll.
  apply (enterAll_invariant (λ v, PrimaryTable v = [])); [done |].
  intros v self Hself Hv. destruct (Enter_fields v self) as (_ & _ & -> & _).
  rewrite forallb_forall in Hnone. apply list_elem_of_In, Hnone in Hself.
  by destruct self as [| |[?|] ?|[?|] ?| | | | | |].
Qed.

(** X11: for an UPDATE or DELETE statement whose join tree names a table,
    the primary table is the first table name of the join tree that is
    not empty, and it is the first table of the tables sequence, whatever
    the tree holds below the statement. *)
Theorem Extract_primary_of_update_delete (self : NodeKind) (children : list Node)
    (first : gostring) (others : list gostring) :
  isUpdateOrDeleteStmt self = true →
  firstSeen [] (leavesOf (joinOf self)).*1 = first :: others →
  let '(_, tableNames, _, _, primaryTable) := Extract mapRange (MkNode self children) in
  primaryTable = first ∧ head tableNames = Some first.
Proof.
  intros Hself Hfirst. unfold Extract.
  rewrite visit_walk, walk_enterAll, nodes_node. cbn [enterAll fold_left].
  apply (enterAll_invariant (λ v, PrimaryTable v = first ∧ head (TableNames v) = Some first)).
  - destruct (Enter_fields newColX self) as (_ & Hnames & Hprimary & _).
    rewrite Hprimary, Hnames. cbn [TableNames newColX app].
    destruct self as [| |[?|] ?|[?|] ?| | | | | |]; try discriminate Hself;
      try discriminate Hfirst; cbn [tablesAt]; by rewrite Hfirst.
  - intros v kind _ [Hprimary Hhead].
    destruct (Enter_fields v kind) as (_ & Hnames & Hprimary' & _).
    assert (head (TableNames (ColX_Enter mapRange v kind).1) = Some first) as Hhead'.
    { rewrite Hnames. by destruct (TableNames v). }
    split; [| done]. rewrite Hprimary', Hhead', Hprimary.
    by destruct kind as [| |[?|] ?|[?|] ?| | | | | |].
Qed.

(** The WHERE filter [Enter] leaves at a statement whose WHERE
    serializes. *)
Lemma Enter_where v self whereExpr restored :
  whereOf self = Some whereExpr →
  Restore whereExpr = inl restored →
  WhereFilter (ColX_Enter mapRange v self).1
  = cleanFilter (mapRange (registerAliases (leavesOf (joinOf self)) (AliasMap v))) restored.
Proof.
  intros Hwhere Hrestored. unfold ColX_Enter. cbn [fst].
  destruct self as [| |TableRefs Where|TableRefs Where|From Where| | | | |];
    try discriminate Hwhere; cbn [whereOf] in Hwhere; subst Where;
    rewrite ?extractWhereFilterFromExpr_same; unfold extractWhereFilter; rewrite Hrestored;
    cbn [WhereFilter setWhereFilter joinOf].
  - destruct TableRefs as [[refs]|];
      rewrite ?extractTableNames_joined, ?setPrimaryFromTables_fields; reflexivity.
  - destruct TableRefs as [[refs]|];
      rewrite ?extractTableNames_joined, ?setPrimaryFromTables_fields; reflexivity.
  - destruct From as [[[refs|]]|]; rewrite ?extractTableNames_joined; reflexivity.
Qed.

(** X12: for an UPDATE, DELETE or SELECT statement with no statement node
    below it and a WHERE that serializes, the WHERE filter is the
    clean-up of the serialized text under the aliases of the statement's
    own join tree: all of them are registered before the text is
    rendered. *)
Theorem Extract_where (self : NodeKind) (children : list Node)
    (whereExpr : ExprNode) (restored : gostring) :
  whereOf self = Some whereExpr →
  Restore whereExpr = inl restored →
  flat_map actions children = [] →
  let '(_, _, _, whereFilter, _) := Extract mapRange (MkNode self children) in
  whereFilter = cleanFilter (mapRange (registerAliases (leavesOf (joinOf self)) ∅)) restored.
Proof.
  intros Hwhere Hrestored Hchildren. unfold Extract.
  rewrite visit_walk, walk_node, fold_walk_no_statement by done.
  cbn [WhereFilter setColNames]. exact (Enter_where newColX self whereExpr restored Hwhere Hrestored).
Qed.

End extractor_facts.

Section extractor_facts_examples.
Import strings regexp ast cmd.

Lemma Extract_tables_NoDup_witness :
  let '(_, tableNames, _, _, _) := Extract map_to_list deleteWithSubquery in
  NoDup tableNames.
Proof.
  apply (Extract_tables_NoDup map_to_list
           (DeleteStmt
              (Some {| TableRefs := Some (MkJoin (tableSource "users" EmptyString) None) |})
              (Some {| Restore :=
                         inl (str "`id` IN (SELECT `user_id` FROM `banned` AS `b` WHERE `b`.`active`=1)") |}))
           [column "id";
            MkNode (SelectStmt
                      (Some {| TableRefs := Some (MkJoin (tableSource "banned" "b") None) |})
                      (Some {| Restore := inl (str "`b`.`active`=1") |}))
                   [column "user_id"; column "active"]]).
  - intros Tables. discriminate.
  - reflexivity.
Defined.

Lemma Extract_ddl_witness :
  Extract map_to_list dropThree
  = ([], [str "users"; str "orders"; str "products"], str "DROP", [], []).
Proof.
  apply (Extract_ddl map_to_list
           (DropTableStmt [Some {| Name_O := str "users" |}; Some {| Name_O := str "orders" |};
                           Some {| Name_O := str "products" |}]) []);
    reflexivity.
Defined.

Lemma Extract_primary_unset_witness :
  let '(_, _, _, _, primaryTable) := Extract map_to_list insertSelect in
  primaryTable = [].
Proof. apply (Extract_primary_unset map_to_list insertSelect). reflexivity. Defined.

Lemma Extract_primary_of_update_delete_witness :
  let '(_, tableNames, _, _, primaryTable) := Extract map_to_list updateShortNames in
  primaryTable = str "ab" ∧ head tableNames = Some (str "ab").
Proof.
  apply (Extract_primary_of_update_delete map_to_list
           (UpdateStmt
              (Some {| TableRefs := Some (MkJoin (tableSource "ab" EmptyString)
                                                 (tableSource "a" EmptyString)) |})
              (Some {| Restore := inl (str "`ab`.`x`=1 AND `a`.`y`=2") |}))
           [column "id"; column "id"; column "v"; column "x"; column "y"]
           (str "ab") [str "a"]);
    reflexivity.
Defined.

Lemma Extract_where_witness :
  let '(_, _, _, whereFilter, _) := Extract map_to_list selectActiveUsers in
  whereFilter = str "users.active=1".
Proof.
  exact (Extract_where map_to_list
           (SelectStmt (Some {| TableRefs := Some (MkJoin (tableSource "users" "u") None) |})
                       (Some {| Restore := inl (str "`u`.`active`=1") |}))
           [column "name"; column "active"]
           {| Restore := inl (str "`u`.`active`=1") |} (str "`u`.`active`=1")
           Logic.eq_refl Logic.eq_refl Logic.eq_refl).
Defined.

(** A subquery's SELECT is the last statement of the walk: its action and
    its WHERE filter are the ones reported for the DELETE. *)
Example Extract_deleteWithSubquery :
  Extract map_to_list deleteWithSubquery
  = ([str "id"; str "user_id"; str "active"], [str "users"; str "banned"], str "SELECT",
     str "banned.active=1", str "users").
Proof. vm_compute. reflexivity. Qed.

End extractor_facts_examples.

(* ===================================================================== *)
(** ** DumpPlanGenerator: connection options, panics and output *)
(* ===================================================================== *)

Section trim_facts.
Import strings.

Variable sp2 : ascii → ascii → bool.
Variable sp3 : ascii → ascii → ascii → bool.





End trim_facts.

Section connection_options.
Import strings regexp ast cmd.


(** X13: in the connection options the IP takes precedence over the host
    (the host is read only when the trimmed IP is empty), the [-h] option
    is there when the target is not empty, and it comes before the user
    and password options. *)
Theorem connOptions_target_first (user password host ip : gostring) :
  connOptions user password host ip
  = (let connTarget := if eq (TrimSpace ip) [] then TrimSpace host else TrimSpace ip in
     if eq connTarget [] then [] else str " -h " ++ connTarget)
    ++ connOptions user password [] [].
Proof.
  unfold connOptions. change (TrimSpace []) with (@nil ascii). cbn [eq negb app].
  destruct (eq (TrimSpace ip) []) eqn:Hip; cbn [negb].
  - destruct (eq (TrimSpace host) []) eqn:Hhost; cbn [negb].
    + rewrite eq_refl. cbn [negb app]. done.
    + rewrite Hhost. cbn [negb app].
      destruct (eq (TrimSpace user) []), (eq (TrimSpace password) []); cbn [negb app];
        by rewrite ?app_nil_r, <- ?app_assoc.
  - rewrite Hip. cbn [negb app].
    destruct (eq (TrimSpace user) []), (eq (TrimSpace password) []); cbn [negb app];
      by rewrite ?app_nil_r, <- ?app_assoc.
Qed.


End connection_options.

Section dump_plan_facts.
Import strings regexp ast cmd.

Variable ToLower : gostring → gostring.
Variables connOpts database : gostring.
Local Abbreviation exportDirective := (exportDirective connOpts database).
Local Abbreviation dumpTable := (dumpTable ToLower connOpts database).
Local Abbreviation dumpFacts := (dumpFacts ToLower connOpts database).

Lemma safe_ret {A} (a : A) : safe (mret a).
Proof. done. Qed.

Lemma safe_Print text : safe (Print text).
Proof. done. Qed.

Lemma safe_bind {A B} (m : io A) (k : A → io B) :
  safe m → (∀ a, safe (k a)) → safe (m ≫= k).
Proof.
  intros Hm Hk out. unfold mbind, io_bind. specialize (Hm out).
  destruct (m out) as [[a|] out']; [apply Hk | done].
Qed.

Lemma safe_forRange {A} (xs : list A) (body : A → io unit) :
  (∀ x, x ∈ xs → safe (body x)) → safe (forRange xs body).
Proof.
  induction xs as [|x xs IH]; intros Hbody; [apply safe_ret |].
  cbn [forRange]. apply safe_bind; [apply Hbody, list_elem_of_here | intros _].
  apply IH. intros y Hy. by apply Hbody, list_elem_of_further.
Qed.

Lemma panics_bind_left {A B} (m : io A) (k : A → io B) : panics m → panics (m ≫= k).
Proof.
  intros Hm out. unfold mbind, io_bind. specialize (Hm out).
  by destruct (m out) as [[a|] out'].
Qed.

Lemma panics_bind_right {A B} (m : io A) (k : A → io B) :
  (∀ a, panics (k a)) → panics (m ≫= k).
Proof.
  intros Hk out. unfold mbind, io_bind.
  destruct (m out) as [[a|] out']; [apply Hk | done].
Qed.

(** A loop panics when one of its rounds does. *)
Lemma panics_forRange {A} (xs : list A) (body : A → io unit) x :
  x ∈ xs → panics (body x) → panics (forRange xs body).
Proof.
  intros Hx Hbody. induction Hx as [x xs | x y xs _ IH]; cbn [forRange].
  - by apply panics_bind_left.
  - apply panics_bind_right. intros _. by apply IH.
Qed.

Lemma safe_printJoin tableName tbl :
  ToLower tableName ≠ [] → 2 ≤ length (ToLower tbl) → safe (printJoin ToLower tableName tbl).
Proof.
  intros Hname Htbl. unfold printJoin. destruct (negb (eq tbl tableName)); [| apply safe_ret].
  destruct (ToLower tbl) as [|c [|d rest]]; [simpl in Htbl; lia.. |].
  destruct (ToLower tableName) as [|c' rest']; [done |].
  cbn [index0 slice02]. apply safe_bind; [apply safe_ret | intros first].
  apply safe_bind; [apply safe_ret | intros firstOfTable].
  apply safe_bind; [| intros alias; apply safe_Print].
  destruct (eq _ _); apply safe_ret.
Qed.

Lemma safe_printHelper tableNames whereFilter tableName :
  ToLower tableName ≠ [] →
  (∀ tbl, tbl ∈ tableNames → 2 ≤ length (ToLower tbl)) →
  safe (printHelper ToLower connOpts database tableNames whereFilter tableName).
Proof.
  intros Hname Htables. unfold printHelper, Println.
  repeat (apply safe_bind; [| intros _]); try apply safe_Print.
  apply safe_forRange. intros tbl Htbl. apply safe_printJoin; [done | by apply Htables].
Qed.

Lemma panics_printJoin tableName tbl c :
  tbl ≠ tableName → ToLower tbl = [c] → head (ToLower tableName) = Some c →
  panics (printJoin ToLower tableName tbl).
Proof.
  intros Hne Htbl Hhead out. unfold printJoin.
  apply eq_false in Hne. rewrite Hne, Htbl. cbn [negb].
  destruct (ToLower tableName) as [|c' rest]; [done |]. cbn [head] in Hhead.
  injection Hhead as ->. cbn [index0 slice02]. unfold mbind, io_bind, mret, io_ret.
  by rewrite eq_refl.
Qed.

Lemma panics_printHelper tableNames whereFilter tableName tbl c :
  tbl ∈ tableNames → tbl ≠ tableName →
  ToLower tbl = [c] → head (ToLower tableName) = Some c →
  panics (printHelper ToLower connOpts database tableNames whereFilter tableName).
Proof.
  intros Hin Hne Htbl Hhead. unfold printHelper.
  do 3 (apply panics_bind_right; intros _).
  apply panics_bind_left. apply (panics_forRange _ _ tbl); [done |].
  by apply (panics_printJoin _ _ c).
Qed.

Lemma dumpFacts_plain tableNames action whereFilter primaryTable out :
  tableNames ≠ [] →
  isUpdateOrDelete action = false ∨ length tableNames = 1 →
  dumpFacts tableNames action whereFilter primaryTable out
  = (Done tt,
     out ++ map (exportDirective tableNames whereFilter)
                (tablesToDump tableNames action primaryTable)).
Proof.
  intros Hnames Hplain. unfold cmd.dumpFacts.
  destruct tableNames as [|t0 rest]; [done |]. cbn [length Nat.eqb].
  generalize (tablesToDump (t0 :: rest) action primaryTable). intros tables.
  revert out. induction tables as [|tableName tables IH]; intros out.
  - cbn. by rewrite app_nil_r.
  - cbn [forRange map]. unfold mbind, io_bind.
    assert (dumpTable (t0 :: rest) action whereFilter primaryTable tableName out
            = (Done tt, out ++ [exportDirective (t0 :: rest) whereFilter tableName]))
      as ->.
    { unfold cmd.dumpTable.
      assert (isUpdateOrDelete action && eq tableName primaryTable
              && (1 <? length (t0 :: rest)) = false) as ->.
      { destruct Hplain as [-> | ->]; [done |]. apply andb_false_r. }
      unfold mbind, io_bind, mret, io_ret. apply printDump_directive. }
    rewrite IH. by rewrite <- app_assoc.
Qed.

(** X14: for a statement with tables whose action is not UPDATE or
    DELETE, or that has a single table, the generator prints nothing but
    the export directives, one per table to export and in their order,
    and it does not panic. *)
Theorem dumpFacts_directives_only (tableNames : list gostring)
    (action whereFilter primaryTable : gostring) (out : list gostring) :
  tableNames ≠ [] →
  isUpdateOrDelete action = false ∨ length tableNames = 1 →
  dumpFacts tableNames action whereFilter primaryTable out
  = (Done tt,
     out ++ map (exportDirective tableNames whereFilter)
                (tablesToDump tableNames action primaryTable)).
Proof. apply dumpFacts_plain. Qed.

(** X15: when the lower-cased names of the primary table and of every
    table of the statement have at least two bytes, the generator does not
    panic, and what it prints holds one export directive per table to
    export, in their order. *)
Theorem dumpFacts_does_not_panic (tableNames : list gostring)
    (action whereFilter primaryTable : gostring) (out : list gostring) :
  tableNames ≠ [] →
  (∀ tbl, tbl ∈ primaryTable :: tableNames → 2 ≤ length (ToLower tbl)) →
  ∃ out', dumpFacts tableNames action whereFilter primaryTable out = (Done tt, out')
          ∧ directivesOf out'
            = directivesOf out
              ++ map (exportDirective tableNames whereFilter)
                     (tablesToDump tableNames action primaryTable).
Proof.
  intros Hnames Hlong.
  assert (safe (dumpFacts tableNames action whereFilter primaryTable)) as Hsafe.
  { unfold cmd.dumpFacts. destruct (length tableNames =? 0); [apply safe_Print |].
    apply safe_forRange. intros tableName _. unfold cmd.dumpTable.
    apply safe_bind; [| intros _; unfold printDump; destruct (negb _); apply safe_Print].
    destruct (isUpdateOrDelete action && eq tableName primaryTable
              && (1 <? length tableNames)) eqn:Hcond; [| apply safe_ret].
    destruct (negb _ && negb _); [| apply safe_ret].
    apply andb_true_iff in Hcond as [[_ ->%eq_spec]%andb_true_iff _].
    apply safe_printHelper.
    - pose proof (Hlong primaryTable (list_elem_of_here _ _)) as Hlen.
      intros Hnil. rewrite Hnil in Hlen. simpl in Hlen. lia.
    - intros tbl Htbl. by apply Hlong, list_elem_of_further. }
  specialize (Hsafe out).
  destruct (dumpFacts tableNames action whereFilter primaryTable out) as [[[]|] out'] eqn:Hrun;
    [| done].
  exists out'. split; [done |]. by apply (dumpFacts_directives ToLower connOpts database) in Hrun.
Qed.

(** X16: for an UPDATE or DELETE of several tables whose WHERE holds
    conditions of other tables (so that the explanatory block is printed),
    the generator panics in that block whenever another table of the
    statement has a one-byte lower-cased name that is the first byte of
    the primary table's lower-cased name ([strings.ToLower(tbl)[0:2]] is
    out of range for it); no export directive is printed. *)
Theorem dumpFacts_short_table_panics (tableNames : list gostring)
    (action whereFilter primaryTable tbl : gostring) (c : ascii) (out : list gostring) :
  isUpdateOrDelete action = true →
  primaryTable ≠ [] →
  1 < length tableNames →
  FilterWhereForTable whereFilter primaryTable tableNames ≠ [] →
  allConditionsFilter whereFilter tableNames
  ≠ FilterWhereForTable whereFilter primaryTable tableNames →
  tbl ∈ tableNames → tbl ≠ primaryTable →
  ToLower tbl = [c] → head (ToLower primaryTable) = Some c →
  ∃ out', dumpFacts tableNames action whereFilter primaryTable out = (Panicked, out')
          ∧ directivesOf out' = directivesOf out.
Proof.
  intros Haction Hprimary Hseveral Hfilter Hcross Hin Hne Htbl Hhead.
  pose proof (forRange_dumpTable ToLower connOpts database tableNames action whereFilter
                primaryTable (tablesToDump tableNames action primaryTable) out)
    as (n & Hn & Hlen).
  cbn zeta in Hn, Hlen.
  assert (tablesToDump tableNames action primaryTable = [primaryTable]) as Htables.
  { unfold tablesToDump. rewrite Haction. apply eq_false in Hprimary. by rewrite Hprimary. }
  assert (panics (dumpFacts tableNames action whereFilter primaryTable)) as Hpanics.
  { unfold cmd.dumpFacts.
    destruct tableNames as [|t0 rest]; [simpl in Hseveral; lia |]. cbn [length Nat.eqb].
    rewrite Htables. cbn [forRange]. apply panics_bind_left. unfold cmd.dumpTable.
    apply panics_bind_left.
    rewrite Haction, eq_refl. cbn [andb].
    destruct (Nat.ltb_spec 1 (length (t0 :: rest))) as [_ | ?]; [| lia].
    apply eq_false in Hfilter, Hcross. rewrite Hfilter, Hcross. cbn [negb andb].
    by apply (panics_printHelper _ _ _ tbl c). }
  specialize (Hpanics out). unfold cmd.dumpFacts in Hpanics.
  destruct tableNames as [|t0 rest]; [simpl in Hseveral; lia |].
  cbn [length Nat.eqb] in Hpanics.
  unfold cmd.dumpFacts. cbn [length Nat.eqb].
  destruct (forRange _ _ out) as [[[]|] out'] eqn:Hrun; [done |].
  exists out'. split; [done |]. cbn [fst snd] in Hn, Hlen.
  rewrite Htables in Hn, Hlen. cbn [length] in Hlen.
  assert (n = 0) as -> by lia. cbn in Hn. by rewrite app_nil_r in Hn.
Qed.

End dump_plan_facts.

Section dump_plan_facts_examples.
Import strings regexp ast cmd.

Lemma dumpFacts_directives_only_witness :
  dumpFacts asciiToLower [] (str "database_name") [str "users"; str "posts"] (str "SELECT")
            (str "users.active=1") [] []
  = (Done tt,
     [str "mysqldump --where=" ++ dquote ++ str "active=1" ++ dquote
      ++ str " database_name users" ++ nl;
      str "mysqldump database_name posts" ++ nl]).
Proof.
  apply (dumpFacts_directives_only asciiToLower [] (str "database_name")
           [str "users"; str "posts"] (str "SELECT") (str "users.active=1") [] []).
  - done.
  - by left.
Defined.

Lemma dumpFacts_does_not_panic_witness :
  ∃ out',
    dumpFacts asciiToLower [] (str "database_name") [str "Employees"; str "Departments"]
      (str "UPDATE")
      (str "Departments.DepartmentName='Sales' and Employees.YearsOfService>=5")
      (str "Employees") []
    = (Done tt, out')
    ∧ directivesOf out'
      = [str "mysqldump --where=" ++ dquote ++ str "YearsOfService>=5" ++ dquote
         ++ str " database_name Employees" ++ nl].
Proof.
  apply (dumpFacts_does_not_panic asciiToLower [] (str "database_name")
           [str "Employees"; str "Departments"] (str "UPDATE")
           (str "Departments.DepartmentName='Sales' and Employees.YearsOfService>=5")
           (str "Employees") []).
  - done.
  - intros tbl Htbl. repeat (apply elem_of_cons in Htbl as [-> | Htbl]; [simpl; lia |]).
    by apply elem_of_nil in Htbl.
Defined.

Lemma dumpFacts_short_table_panics_witness :
  ∃ out',
    dumpFacts asciiToLower [] (str "database_name") [str "ab"; str "a"] (str "UPDATE")
      (str "ab.x=1 and a.y=2") (str "ab") []
    = (Panicked, out')
    ∧ directivesOf out' = [].
Proof.
  apply (dumpFacts_short_table_panics asciiToLower [] (str "database_name")
           [str "ab"; str "a"] (str "UPDATE") (str "ab.x=1 and a.y=2") (str "ab") (str "a")
           "a"%char []); try done.
  - simpl. lia.
  - apply list_elem_of_further, list_elem_of_here.
Defined.

End dump_plan_facts_examples.

(* ===================================================================== *)
(** ** PerTableFilterSplitter: filters that pass whole or not at all *)
(* ===================================================================== *)

Section splitter_facts.
Import strings regexp cmd.

Lemma splitFrom_nonempty sep k cur s : splitFrom sep k cur s ≠ [].
Proof.
  revert k cur. induction s as [|c s IH]; intros k cur; [done |].
  cbn [splitFrom]. destruct k; [| apply IH]. destruct (HasPrefix _ _); [done | apply IH].
Qed.

Lemma Join_cons e elems sep : elems ≠ [] → Join (e :: elems) sep = e ++ sep ++ Join elems sep.
Proof. by destruct elems. Qed.

(** Joining the pieces of a split with the separator gives the text
    back. *)
Lemma Join_Split s sep : sep ≠ [] → Join (Split s sep) sep = s.
Proof.
  intros Hsep. unfold Split. destruct sep as [|c0 sep0] eqn:Heq; [done |]. rewrite <- Heq in *.
  clear Heq c0 sep0.
  enough (∀ cur, Join (splitFrom sep 0 cur s) sep = rev cur ++ s) as H by apply (H []).
  induction s as [|rest IH|c s Hc IH] using (scan_ind sep Hsep); intros cur.
  - cbn. by rewrite app_nil_r.
  - rewrite splitFrom_match by done.
    rewrite Join_cons by apply splitFrom_nonempty. by rewrite IH.
  - rewrite splitFrom_nomatch by done. rewrite IH. cbn [rev]. by rewrite <- app_assoc.
Qed.

Lemma and_nonempty : str " and " ≠ [].
Proof. done. Qed.

(** X17: for a statement of several tables, a filter whose conditions
    name no table of the statement (nor the target) and carry no outer
    white space is returned as it is, for every target: the conditions
    that are not qualified go to every table, and joining the conditions
    of the split gives the filter back. *)
Theorem FilterWhereForTable_unqualified (whereFilter tableName : gostring)
    (allTables : list gostring) :
  1 < length allTables →
  Forall (λ condition, TrimSpace condition = condition
                       ∧ Contains condition (tableName ++ str ".") = false
                       ∧ hasTablePrefix condition allTables = false)
         (Split whereFilter (str " and ")) →
  FilterWhereForTable whereFilter tableName allTables = whereFilter.
Proof.
  intros Hseveral Hconditions.
  rewrite FilterWhereForTable_multi, fold_filterStep by done. cbn [app].
  rewrite <- (Join_Split whereFilter (str " and ") and_nonempty) at 2. f_equal.
  induction Hconditions as [|condition rest (Htrim & Htarget & Hother) _ IH]; [done |].
  cbn [fmap list_fmap omap list_omap]. rewrite Htrim. unfold Spec.attribute at 1.
  rewrite Htarget, <- hasTablePrefix_existsb, Hother. cbn. f_equal. apply IH.
Qed.

(** X18: for a statement of several tables, when every condition of the
    filter names another table of the statement and not the target, the
    per-table filter of the target is empty, and the export directive of
    the target has no [--where] clause: the table is exported whole. *)
Theorem FilterWhereForTable_other_tables_only (connOpts database : gostring)
    (whereFilter tableName : gostring) (allTables : list gostring) :
  1 < length allTables →
  Forall (λ condition, Contains (TrimSpace condition) (tableName ++ str ".") = false
                       ∧ hasTablePrefix (TrimSpace condition) allTables = true)
         (Split whereFilter (str " and ")) →
  FilterWhereForTable whereFilter tableName allTables = []
  ∧ exportDirective connOpts database allTables whereFilter tableName
    = str "mysqldump" ++ connOpts ++ str " " ++ database ++ str " " ++ tableName ++ nl.
Proof.
  intros Hseveral Hconditions.
  assert (FilterWhereForTable whereFilter tableName allTables = []) as Hempty.
  { rewrite FilterWhereForTable_multi, fold_filterStep by done. cbn [app].
    replace (omap _ _) with (@nil gostring); [done |].
    induction Hconditions as [|condition rest (Htarget & Hother) _ IH]; [done |].
    cbn [fmap list_fmap omap list_omap]. unfold Spec.attribute at 1.
    by rewrite Htarget, <- hasTablePrefix_existsb, Hother. }
  split; [done |]. unfold exportDirective. by rewrite Hempty.
Qed.

(** The cases of the package's [TestFilterWhereForTable], with the
    results the test wants. *)
Example TestFilterWhereForTable_cases :
  Forall (λ '(whereFilter, tableName, allTables, want),
            FilterWhereForTable (str whereFilter) (str tableName) (str <$> allTables)
            = str want)
    [("id=1 and status='active'", "users", ["users"], "id=1 and status='active'");
     ("users.active=1 and posts.published=TRUE", "users", ["users"; "posts"], "active=1");
     ("users.active=1 and posts.published=TRUE", "posts", ["users"; "posts"],
      "published=TRUE");
     ("users.active=1 and users.status='premium' and posts.published=TRUE", "users",
      ["users"; "posts"], "active=1 and status='premium'");
     ("users.active=1 and posts.published=TRUE", "orders", ["users"; "posts"; "orders"],
      EmptyString);
     (EmptyString, "users", ["users"; "posts"], EmptyString);
     ("users.active=1 and orders.status='pending' and products.available=TRUE", "orders",
      ["users"; "orders"; "products"], "status='pending'")]%string.
Proof. repeat constructor. Qed.

Lemma FilterWhereForTable_unqualified_witness :
  FilterWhereForTable (str "status='active' and age>18") (str "users")
    [str "users"; str "posts"]
  = str "status='active' and age>18".
Proof.
  apply (FilterWhereForTable_unqualified (str "status='active' and age>18") (str "users")
           [str "users"; str "posts"]).
  - simpl. lia.
  - repeat constructor.
Defined.

Lemma FilterWhereForTable_other_tables_only_witness :
  FilterWhereForTable (str "users.active=1") (str "posts") [str "users"; str "posts"] = []
  ∧ exportDirective [] (str "database_name") [str "users"; str "posts"] (str "users.active=1")
      (str "posts")
    = str "mysqldump database_name posts" ++ nl.
Proof.
  apply (FilterWhereForTable_other_tables_only [] (str "database_name") (str "users.active=1")
           (str "posts") [str "users"; str "posts"]).
  - simpl. lia.
  - repeat constructor.
Defined.

End splitter_facts.

(* ===================================================================== *)
(** ** WhereRenderer: the bytes of the filter *)
(* ===================================================================== *)

Section filter_bytes.
Import strings regexp cmd.

(** A property of bytes that the quote, the dollar sign and the dot
    have. *)
Variable Q : ascii → Prop.
Hypothesis Q_quote : Q "'"%char.
Hypothesis Q_dollar : Q "$"%char.
Hypothesis Q_dot : Q "."%char.

Lemma ReplaceAll_bytes s old new :
  Forall Q s → Forall Q new → Forall Q (ReplaceAll s old new).
Proof.
  intros Hs Hnew. destruct (decide (old = [])) as [-> | Hold]; [done |].
  induction s as [|rest IH|c s Hc IH] using (scan_ind old Hold).
  - by rewrite ReplaceAll_nil.
  - rewrite ReplaceAll_match by done. apply Forall_app in Hs as [_ Hrest].
    apply Forall_app. split; [done | by apply IH].
  - rewrite ReplaceAll_nomatch by done. apply Forall_cons in Hs as [Hhead Htail].
    apply Forall_cons. split; [done | by apply IH].
Qed.

Lemma lazyQuoted_inv s body rest :
  lazyQuoted s = Some (body, rest) → s = body ++ "'"%char :: rest.
Proof.
  revert body rest. induction s as [|c s IH]; intros body rest; [done |].
  cbn [lazyQuoted]. destruct (Ascii.eqb c "'") eqn:Hc.
  - apply Ascii.eqb_eq in Hc as ->. by intros [= <- <-].
  - destruct (byte c =? 10)%N; [done |].
    destruct (lazyQuoted s) as [[body' rest']|]; [| done].
    intros [= <- <-]. cbn [app]. f_equal. by apply IH.
Qed.

Lemma ReplaceCharset_bytes s : Forall Q s → Forall Q (ReplaceCharset s).
Proof.
  unfold ReplaceCharset.
  induction s as [s IH] using (induction_ltof1 _ (@length ascii)). unfold ltof in IH.
  intros Hs. destruct s as [|c s']; [done |]. cbn [charsetFrom].
  assert (Forall Q (c :: charsetFrom 0 s')) as Hcopy.
  { apply Forall_cons in Hs as [Hhead Htail].
    apply Forall_cons. split; [done |]. apply IH; [simpl; lia | done]. }
  destruct (HasPrefix (c :: s') charsetPrefix) eqn:Hprefix; [| done].
  destruct (lazyQuoted _) as [[body rest]|] eqn:Hquoted; [| done].
  apply HasPrefix_spec in Hprefix as [k Hk]. rewrite Hk in Hquoted.
  rewrite drop_app_length in Hquoted. apply lazyQuoted_inv in Hquoted. subst k.
  change charsetPrefix with ("_"%char :: str "UTF8MB4'") in Hk. cbn [app] in Hk.
  injection Hk as _ Hs'.
  change (s' = str "UTF8MB4'" ++ body ++ "'"%char :: rest) in Hs'.
  apply Forall_cons in Hs as [_ Hs]. rewrite Hs' in Hs |- *.
  apply Forall_app in Hs as [_ Hs].
  apply Forall_app in Hs as [Hbody Hrest]. apply Forall_cons in Hrest as [_ Hrest].
  apply Forall_app. split; [by repeat constructor |].
  apply Forall_app. split; [done |].
  apply Forall_app. split; [by repeat constructor |].
  rewrite charsetFrom_skip by (rewrite !length_app; simpl; lia).
  rewrite (cons_middle "'"%char body rest), (app_assoc body), (app_assoc (str "UTF8MB4'")).
  rewrite drop_app_length' by (rewrite !length_app; simpl; lia).
  apply IH; [rewrite Hs'; simpl; rewrite length_app; simpl; lia | done].
Qed.

Lemma takeName_inv s name rest : takeName s = (name, rest) → s = name ++ rest.
Proof.
  revert name rest. induction s as [|c s IH]; intros name rest; cbn [takeName].
  - by intros [= <- <-].
  - destruct (isWordChar c); [| by intros [= <- <-]].
    destruct (takeName s) as [name' rest']. intros [= <- <-]. cbn [app]. f_equal. by apply IH.
Qed.

Lemma extract_bytes s name rest : extract s = Some (name, rest) → Forall Q s → Forall Q rest.
Proof.
  unfold extract. destruct s as [|c s']; [done |].
  destruct (Ascii.eqb c "{").
  - destruct (takeName s') as [[|n name'] [|r rest']] eqn:Htake; try done.
    destruct (Ascii.eqb r "}"); [| done]. intros [= <- <-] Hs.
    apply takeName_inv in Htake. apply Forall_cons in Hs as [_ Hs]. rewrite Htake in Hs.
    apply Forall_app in Hs as [_ Hs]. by apply Forall_cons in Hs as [_ Hs].
  - destruct (takeName (c :: s')) as [[|n name'] rest'] eqn:Htake; [done |].
    intros [= <- <-] Hs. apply takeName_inv in Htake. rewrite Htake in Hs.
    by apply Forall_app in Hs as [_ Hs].
Qed.

Lemma expand_bytes template whole :
  Forall Q template → Forall Q whole → Forall Q (expand template whole).
Proof.
  unfold expand. generalize (S (length template)). intros fuel. revert template.
  induction fuel as [|fuel IH]; intros template Htemplate Hwhole; [done |].
  cbn [expandFuel]. destruct template as [|c after]; [done |].
  apply Forall_cons in Htemplate as [Hc Hafter].
  destruct (Ascii.eqb c "$"); [| apply Forall_cons; split; [done | by apply IH]].
  destruct after as [|d after']; [by repeat constructor |].
  destruct (Ascii.eqb d "$").
  { apply Forall_cons. split; [done |]. apply IH; [| done].
    by apply Forall_cons in Hafter as [_ Hafter]. }
  destruct (extract (d :: after')) as [[name rest]|] eqn:Hextract.
  - apply Forall_app. split.
    + unfold reference. by destruct (eq name (str "0")).
    + apply IH; [| done]. by apply (extract_bytes _ _ _ Hextract).
  - apply Forall_cons. split; [done |]. by apply IH.
Qed.

Lemma ReplaceAlias_bytes alias repl s :
  Forall Q repl → Forall Q s → Forall Q (ReplaceAlias alias repl s).
Proof.
  intros Hrepl. unfold ReplaceAlias. generalize (@None ascii). intros before. revert before s.
  apply (alias_scan_ind alias (λ before s, Forall Q s → Forall Q (aliasFrom alias repl 0 before s))).
  - done.
  - intros before rest Hat IH Hs. rewrite aliasFrom_match by done.
    rewrite app_assoc in Hs. apply Forall_app in Hs as [Hwhole Hrest].
    apply Forall_app. split; [by apply expand_bytes | by apply IH].
  - intros before c s Hat IH Hs. rewrite aliasFrom_nomatch by done.
    apply Forall_cons in Hs as [Hc Hs]. apply Forall_cons. split; [done | by apply IH].
Qed.

Lemma substituteAliases_bytes entries s :
  Forall (λ entry, Forall Q entry.2) entries → Forall Q s →
  Forall Q (substituteAliases entries s).
Proof.
  unfold substituteAliases. intros Hentries. revert s.
  induction Hentries as [|[alias tableName] entries Htable _ IH]; intros s Hs; [done |].
  cbn [fold_left]. apply IH. apply ReplaceAlias_bytes; [| done].
  apply Forall_app. split; [done | by repeat constructor].
Qed.

End filter_bytes.

Section filter_backticks.
Import strings regexp cmd.

Lemma ReplaceAll_removes_byte s c : c ∉ ReplaceAll s [c] [].
Proof.
  assert ([c] ≠ []) as Hold by done.
  induction s as [|rest IH|d s Hd IH] using (scan_ind [c] Hold).
  - rewrite ReplaceAll_nil. apply not_elem_of_nil.
  - by rewrite ReplaceAll_match.
  - rewrite ReplaceAll_nomatch by done. rewrite elem_of_cons. intros [-> | Hin]; [| done].
    cbn in Hd. by rewrite Ascii.eqb_refl in Hd.
Qed.

(** X19: when no table name of the alias map holds a backtick, the
    clean-up of a serialized WHERE text holds no backtick, whatever the
    text and the aliases are: the first step removes them all and no later
    step brings one in. *)
Theorem cleanFilter_no_backtick (entries : list (gostring * gostring))
    (restored : gostring) :
  Forall (λ entry, "`"%char ∉ entry.2) entries →
  "`"%char ∉ cleanFilter entries restored.
Proof.
  intros Hentries Hin.
  assert (Forall (λ c, c ≠ "`"%char) (cleanFilter entries restored)) as Hbytes.
  { unfold cleanFilter.
    apply ReplaceAll_bytes; [| by repeat constructor].
    apply substituteAliases_bytes; try done.
    - eapply Forall_impl; [exact Hentries |]. intros [alias tableName] Htable. cbn [snd] in *.
      apply Forall_forall. intros c Hc ->. done.
    - apply ReplaceCharset_bytes; [done |].
      apply Forall_forall. intros c Hc ->. by apply ReplaceAll_removes_byte in Hc. }
  rewrite Forall_forall in Hbytes. by apply (Hbytes _ Hin).
Qed.

Lemma cleanFilter_no_backtick_witness :
  "`"%char ∉ cleanFilter [(str "u", str "users")] (str "`u`.`name`=_UTF8MB4'a`b' AND `u`.`id`=1").
Proof.
  apply (cleanFilter_no_backtick [(str "u", str "users")]).
  repeat constructor. cbn [snd]. intros Hin%list_elem_of_In. cbn in Hin.
  repeat (destruct Hin as [Hin | Hin]; [discriminate Hin |]). done.
Defined.

End filter_backticks.

(* ===================================================================== *)
(** ** The commands *)
(* ===================================================================== *)

Section commands_facts.
Import strings regexp ast cmd.

Variable ReadFile : gostring → gostring + gostring.
Variable ParseSQL : gostring → list Node * option gostring.
Variable ToLower : gostring → gostring.
Variable mapRange : gmap gostring gostring → list (gostring * gostring).

Local Abbreviation getSQLInput := (getSQLInput ReadFile).
Local Abbreviation ParseAll := (ParseAll ParseSQL).
Local Abbreviation CheckSQLSyntax := (CheckSQLSyntax ParseSQL).
Local Abbreviation runParse := (runParse ReadFile ParseSQL mapRange).
Local Abbreviation runDump := (runDump ReadFile ParseSQL ToLower mapRange).
Local Abbreviation runCheck := (runCheck ReadFile ParseSQL).

Lemma CheckSQLSyntax_ParseAll sql :
  CheckSQLSyntax sql = match ParseAll sql with inr err => Some err | inl _ => None end.
Proof. unfold cmd.CheckSQLSyntax, cmd.ParseAll. by destruct (ParseSQL sql) as [stmtNodes [err|]]. Qed.

Lemma printReport_reportOf count idx stmtNode out :
  printReport mapRange count idx stmtNode out = (Done tt, out ++ reportOf mapRange count idx stmtNode).
Proof.
  unfold printReport, reportOf, Println, Print, separator, headerOf.
  destruct (Extract mapRange stmtNode) as [[[[colNames tableNames] action] whereFilter] ?].
  unfold mbind, io_bind, mret, io_ret.
  destruct (1 <? count), (0 <? idx), (eq whereFilter []); cbn [negb app];
    by rewrite <- ?app_assoc, ?app_nil_r.
Qed.

(** The statement loop does not panic and prints the rounds one after
    the other. *)
Lemma forRangeIndexed_printReport count idx stmtNodes out :
  forRangeIndexed idx stmtNodes (printReport mapRange count) out
  = (Done tt, out ++ concat (imap (λ i, reportOf mapRange count (idx + i)) stmtNodes)).
Proof.
  revert idx out. induction stmtNodes as [|stmtNode rest IH]; intros idx out.
  - cbn. by rewrite app_nil_r.
  - cbn [forRangeIndexed imap concat]. unfold mbind, io_bind.
    rewrite printReport_reportOf, IH, Nat.add_0_r, <- app_assoc. do 4 f_equal.
    apply imap_ext. intros i stmt _. unfold compose. cbn beta. f_equal. lia.
Qed.

Lemma headers_reportOf count idx stmtNode :
  List.filter isHeader (reportOf mapRange count idx stmtNode)
  = if 1 <? count then [headerOf (idx + 1)] else [].
Proof.
  unfold reportOf.
  destruct (Extract mapRange stmtNode) as [[[[colNames tableNames] action] whereFilter] ?].
  assert (isHeader (headerOf (idx + 1)) = true) as Hheader by apply HasPrefix_app.
  destruct (1 <? count), (0 <? idx), (eq whereFilter []); cbn [app List.filter];
    rewrite ?Hheader; reflexivity.
Qed.

Lemma separators_reportOf count idx stmtNode :
  List.filter isSeparator (reportOf mapRange count idx stmtNode)
  = if (1 <? count) && (0 <? idx) then [separator] else [].
Proof.
  unfold reportOf.
  destruct (Extract mapRange stmtNode) as [[[[colNames tableNames] action] whereFilter] ?].
  assert (isSeparator (headerOf (idx + 1)) = false) as Hheader by reflexivity.
  destruct (1 <? count), (0 <? idx), (eq whereFilter []); cbn [app List.filter andb];
    rewrite ?Hheader; reflexivity.
Qed.

Lemma filter_concat_imap {A} (mark : gostring → bool) (f : nat → A → list gostring) xs :
  List.filter mark (concat (imap f xs)) = concat (imap (λ i x, List.filter mark (f i x)) xs).
Proof.
  revert f. induction xs as [|x xs IH]; intros f; [done |].
  cbn [imap concat]. by rewrite List.filter_app, IH.
Qed.

(** X20: with the file flag set, the three commands never look at their
    arguments: they do the same for every argument list. *)
Theorem commands_file_flag_first (flags : Flags) (args args' : list gostring) :
  fileInput flags ≠ [] →
  getSQLInput flags args = getSQLInput flags args'
  ∧ runParse flags args = runParse flags args'
  ∧ runDump flags args = runDump flags args'
  ∧ runCheck flags args = runCheck flags args'.
Proof.
  intros Hfile%eq_false.
  assert (getSQLInput flags args = getSQLInput flags args') as Hinput.
  { unfold cmd.getSQLInput. by rewrite Hfile. }
  unfold cmd.runParse, cmd.runDump, cmd.runCheck. by rewrite Hinput.
Qed.

(** X21: a command that returns an error has printed nothing, be it for
    a missing input, a file that cannot be read or a parse error of any
    statement of the input; [runDump] then leaves the flags as they
    were. *)
Theorem commands_fail_without_output (flags : Flags) (args : list gostring)
    (out : list gostring) :
  (∀ err out', runParse flags args out = (Done (Some err), out') → out' = out)
  ∧ (∀ err out', runCheck flags args out = (Done (Some err), out') → out' = out)
  ∧ (∀ flags' err out',
       runDump flags args out = (Done (flags', Some err), out') →
       out' = out ∧ flags' = flags).
Proof.
  unfold cmd.runParse, cmd.runCheck, cmd.runDump.
  destruct (getSQLInput flags args) as [sql|err0]; [| by repeat split; intros; unfold mret, io_ret in *; simplify_eq].
  rewrite CheckSQLSyntax_ParseAll.
  destruct (ParseAll sql) as [stmtNodes|err0]; [| by repeat split; intros; unfold mret, io_ret in *; simplify_eq].
  unfold mbind, io_bind, mret, io_ret. split; [| split].
  - intros err out'. by destruct (forRangeIndexed _ _ _ out) as [[[]|] ?].
  - intros err out'. unfold Println, Print. congruence.
  - intros flags' err out'.
    destruct (dumpStatements _ _ _ _ _ out) as [[[]|] ?]; congruence.
Qed.

(** X22: [runCheck] accepts an input exactly when [runParse] reports on
    it: both read the input the same way and call the same parser.  When
    it accepts it prints the one line that says so. *)
Theorem runCheck_agrees_with_runParse (flags : Flags) (args : list gostring)
    (out : list gostring) :
  ((runCheck flags args out).1 = Done None ↔ (runParse flags args out).1 = Done None)
  ∧ ((runCheck flags args out).1 = Done None →
     (runCheck flags args out).2 = out ++ [str "✓ SQL syntax is valid" ++ nl]).
Proof.
  unfold cmd.runParse, cmd.runCheck.
  destruct (getSQLInput flags args) as [sql|err0]; [| done].
  rewrite CheckSQLSyntax_ParseAll.
  destruct (ParseAll sql) as [stmtNodes|err0]; [| done].
  unfold mbind, io_bind. by rewrite forRangeIndexed_printReport.
Qed.

Lemma concat_imap_headers (count k : nat) (stmtNodes : list Node) :
  concat (imap (λ i (_ : Node), if 1 <? count then [headerOf (k + i + 1)] else []) stmtNodes)
  = if 1 <? count then headerOf <$> seq (k + 1) (length stmtNodes) else [].
Proof.
  revert k. induction stmtNodes as [|stmtNode rest IH]; intros k.
  - cbn [imap concat length seq fmap list_fmap]. by destruct (1 <? count).
  - cbn [imap concat length seq]. rewrite Nat.add_0_r.
    rewrite (imap_ext _ (λ i _, if 1 <? count then [headerOf (S k + i + 1)] else []))
      by (intros i ? _; unfold compose; cbn beta; destruct (1 <? count);
          [do 2 f_equal; lia | done]).
    rewrite IH. destruct (1 <? count); [| done].
    replace (S k + 1) with (S (k + 1)) by lia. done.
Qed.

Lemma concat_imap_separators (count k : nat) (stmtNodes : list Node) :
  concat (imap (λ i (_ : Node), if (1 <? count) && (0 <? k + i) then [separator] else [])
               stmtNodes)
  = if 1 <? count
    then replicate (length stmtNodes - match k with 0 => 1 | S _ => 0 end) separator
    else [].
Proof.
  revert k. induction stmtNodes as [|stmtNode rest IH]; intros k.
  - cbn [imap concat length Nat.sub replicate]. by destruct (1 <? count).
  - cbn [imap concat length]. rewrite Nat.add_0_r.
    rewrite (imap_ext _ (λ i _, if (1 <? count) && (0 <? S k + i) then [separator] else []))
      by (intros i ? _; unfold compose; cbn beta;
          replace (k + S i) with (S k + i) by lia; done).
    rewrite IH. destruct (1 <? count); [| done]. cbn [andb].
    destruct k as [|k]; cbn [Nat.ltb Nat.leb app].
    + reflexivity.
    + by rewrite !Nat.sub_0_r.
Qed.

(** X23: for an input of [n] statements that parses, [runParse] does not
    panic; when [n] is at least two it prints the headers [Statement 1:]
    to [Statement n:] in this order and [n - 1] separators [---], and for
    a single statement it prints neither. *)
Theorem runParse_headers (flags : Flags) (args : list gostring) (sql : gostring)
    (stmtNodes : list Node) (out : list gostring) :
  getSQLInput flags args = inl sql →
  ParseAll sql = inl stmtNodes →
  ∃ out',
    runParse flags args out = (Done None, out')
    ∧ List.filter isHeader out'
      = List.filter isHeader out
        ++ (if 1 <? length stmtNodes then headerOf <$> seq 1 (length stmtNodes) else [])
    ∧ List.filter isSeparator out'
      = List.filter isSeparator out ++ replicate (length stmtNodes - 1) separator.
Proof.
  intros Hinput Hparse. unfold cmd.runParse. rewrite Hinput, Hparse.
  unfold mbind, io_bind. rewrite forRangeIndexed_printReport. eexists. split; [done |].
  rewrite !List.filter_app, !filter_concat_imap. split; f_equal.
  - rewrite (imap_ext _ (λ i _, if 1 <? length stmtNodes then [headerOf (0 + i + 1)] else []))
      by (intros; apply headers_reportOf).
    apply concat_imap_headers.
  - rewrite (imap_ext _ (λ i _, if (1 <? length stmtNodes) && (0 <? 0 + i)
                                then [separator] else []))
      by (intros; apply separators_reportOf).
    rewrite concat_imap_separators.
    destruct (Nat.ltb_spec 1 (length stmtNodes)) as [_ | Hfew]; [done |].
    by replace (length stmtNodes - 1) with 0 by lia.
Qed.



End commands_facts.

Section commands_examples.
Import strings regexp ast cmd.

Lemma commands_file_flag_first_witness :
  let flags := {| fileInput := str "query.sql"; user := []; password := []; host := [];
                  ip := []; database := str "database_name" |} in
  let ReadFile := λ _ : gostring, inl (str "DROP TABLE users, orders, products") in
  let ParseSQL := λ _ : gostring, ([dropThree], None) in
  getSQLInput ReadFile flags [str "SELECT 1"] = getSQLInput ReadFile flags []
  ∧ runParse ReadFile ParseSQL map_to_list flags [str "SELECT 1"]
    = runParse ReadFile ParseSQL map_to_list flags []
  ∧ runDump ReadFile ParseSQL asciiToLower map_to_list flags [str "SELECT 1"]
    = runDump ReadFile ParseSQL asciiToLower map_to_list flags []
  ∧ runCheck ReadFile ParseSQL flags [str "SELECT 1"] = runCheck ReadFile ParseSQL flags [].
Proof.
  cbn zeta.
  apply (commands_file_flag_first
           (λ _, inl (str "DROP TABLE users, orders, products")) (λ _, ([dropThree], None))
           asciiToLower map_to_list
           {| fileInput := str "query.sql"; user := []; password := []; host := [];
              ip := []; database := str "database_name" |}
           [str "SELECT 1"] []).
  done.
Defined.

Lemma runParse_headers_witness :
  let flags := {| fileInput := []; user := []; password := []; host := [];
                  ip := []; database := str "database_name" |} in
  let ReadFile := λ _ : gostring, inr (str "no such file") in
  let ParseSQL := λ _ : gostring, ([selectActiveUsers; dropThree; insertSelect], None) in
  ∃ out',
    runParse ReadFile ParseSQL map_to_list flags [str "three statements"] [] = (Done None, out')
    ∧ List.filter isHeader out'
      = [str "Statement 1:" ++ nl; str "Statement 2:" ++ nl; str "Statement 3:" ++ nl]
    ∧ List.filter isSeparator out' = [separator; separator].
Proof.
  cbn zeta.
  apply (runParse_headers
           (λ _, inr (str "no such file"))
           (λ _, ([selectActiveUsers; dropThree; insertSelect], None))
           map_to_list
           {| fileInput := []; user := []; password := []; host := [];
              ip := []; database := str "database_name" |}
           [str "three statements"] (str "three statements")
           [selectActiveUsers; dropThree; insertSelect] []);
    reflexivity.
Defined.

(** The run of the package's [TestDumpWithAllConnectionFlags], on the
    tree of [SELECT * FROM logs WHERE level = 'error'], with the output the
    test wants. *)
Example TestDumpWithAllConnectionFlags_output :
  let flags := {| fileInput := []; user := str "admin"; password := str "secret123";
                  host := []; ip := str "192.168.1.100"; database := str "production_db" |} in
  let ParseSQL := λ _ : gostring,
    ([MkNode (SelectStmt
                (Some {| TableRefs := Some (MkJoin (tableSource "logs" EmptyString) None) |})
                (Some {| Restore := inl (str "`level`=_UTF8MB4'error'") |}))
             [column "level"]], None) in
  runDump (λ _, inr (str "no such file")) ParseSQL asciiToLower map_to_list flags
          [str "SELECT * FROM logs WHERE level = 'error'"] []
  = (Done (flags, None),
     [str "mysqldump -h 192.168.1.100 -u admin --password=secret123 --where=" ++ dquote
      ++ str "level='error'" ++ dquote ++ str " production_db logs" ++ nl]).
Proof. vm_compute. reflexivity. Qed.

End commands_examples.

(* ===================================================================== *)
(** ** From the statement to its export plan *)
(* ===================================================================== *)

Section statement_plan.
Import strings regexp ast cmd.

Variable ToLower : gostring → gostring.
Variable mapRange : gmap gostring gostring → list (gostring * gostring).
Variables connOpts database : gostring.

Lemma firstSeen_one tableName : tableName ≠ [] → firstSeen [] [tableName] = [tableName].
Proof.
  intros Hname%eq_false. cbn [firstSeen]. rewrite Hname.
  rewrite bool_decide_eq_false_2 by apply not_elem_of_nil. done.
Qed.

Lemma FilterWhereForTable_one whereFilter tableName :
  FilterWhereForTable whereFilter tableName [tableName] = whereFilter.
Proof.
  unfold FilterWhereForTable. destruct (eq whereFilter []) eqn:Hempty; [| done].
  by apply eq_spec in Hempty.
Qed.

(** X25: for an UPDATE, DELETE or SELECT statement on one table, with a
    WHERE that serializes and no statement node below it, [runDump]'s
    statement loop prints exactly one line: the export directive of the
    table, with the whole cleaned WHERE filter in its [--where] clause
    (no clause when the filter is empty); no explanatory block, no
    panic. *)
Theorem dumpStatement_single_table (self : NodeKind) (children : list Node)
    (tableName alias : gostring) (whereExpr : ExprNode) (restored : gostring)
    (out : list gostring) :
  leavesOf (joinOf self) = [(tableName, alias)] →
  tableName ≠ [] →
  whereOf self = Some whereExpr →
  Restore whereExpr = inl restored →
  flat_map actions children = [] →
  let filter := cleanFilter (mapRange (registerAliases [(tableName, alias)] ∅)) restored in
  dumpStatement ToLower mapRange connOpts database (MkNode self children) out
  = (Done tt,
     out ++ [str "mysqldump" ++ connOpts
             ++ (if eq filter [] then [] else str " --where=" ++ dquote ++ filter ++ dquote)
             ++ str " " ++ database ++ str " " ++ tableName ++ nl]).
Proof.
  intros Hleaves Hname Hwhere Hrestored Hchildren filter.
  unfold dumpStatement, Extract.
  rewrite visit_walk, walk_node, fold_walk_no_statement by done.
  cbn [TableNames Action WhereFilter PrimaryTable setColNames].
  destruct (Enter_fields mapRange newColX self) as (_ & Hnames & Hprimary & _).
  pose proof (Enter_where mapRange newColX self whereExpr restored Hwhere Hrestored)
    as Hfilter.
  rewrite Hleaves in Hfilter. change (AliasMap newColX) with (∅ : gmap gostring gostring) in Hfilter.
  fold filter in Hfilter.
  assert (TableNames (ColX_Enter mapRange newColX self).1 = [tableName]) as Htables.
  { rewrite Hnames. cbn [TableNames newColX app].
    destruct self; try discriminate Hwhere; cbn [tablesAt]; rewrite Hleaves;
      by apply firstSeen_one. }
  rewrite Hprimary, Htables, Hfilter, Action_Enter. cbn [head default Action newColX].
  rewrite dumpFacts_plain; [| done | by right].
  assert (∀ action primaryTable,
            primaryTable = [] ∨ primaryTable = tableName →
            tablesToDump [tableName] action primaryTable = [tableName]) as Hdump.
  { intros action primaryTable [-> | ->]; unfold tablesToDump;
      [by rewrite andb_false_r | by destruct (_ && _)]. }
  rewrite Hdump.
  - cbn [map]. unfold exportDirective. by rewrite FilterWhereForTable_one.
  - destruct self as [| |[?|] ?|[?|] ?| | | | | |]; try discriminate Hwhere;
      try discriminate Hleaves; auto.
Qed.

End statement_plan.

Section statement_plan_examples.
Import strings regexp ast cmd.

(** [DELETE FROM users WHERE status = 'inactive' AND last_login < '2023-01-01']. *)
Lemma dumpStatement_single_table_witness :
  dumpStatement asciiToLower map_to_list [] (str "database_name")
    (MkNode (DeleteStmt
               (Some {| TableRefs := Some (MkJoin (tableSource "users" EmptyString) None) |})
               (Some {| Restore :=
                          inl (str "`status`=_UTF8MB4'inactive' AND `last_login`<_UTF8MB4'2023-01-01'") |}))
            [column "status"; column "last_login"]) []
  = (Done tt,
     [str "mysqldump --where=" ++ dquote
      ++ str "status='inactive' and last_login<'2023-01-01'" ++ dquote
      ++ str " database_name users" ++ nl]).
Proof.
  exact (dumpStatement_single_table asciiToLower map_to_list [] (str "database_name")
           (DeleteStmt
              (Some {| TableRefs := Some (MkJoin (tableSource "users" EmptyString) None) |})
              (Some {| Restore :=
                         inl (str "`status`=_UTF8MB4'inactive' AND `last_login`<_UTF8MB4'2023-01-01'") |}))
           [column "status"; column "last_login"] (str "users") []
           {| Restore :=
                inl (str "`status`=_UTF8MB4'inactive' AND `last_login`<_UTF8MB4'2023-01-01'") |}
           (str "`status`=_UTF8MB4'inactive' AND `last_login`<_UTF8MB4'2023-01-01'") []
           Logic.eq_refl ltac:(done) Logic.eq_refl Logic.eq_refl Logic.eq_refl).
Defined.

End statement_plan_examples.
